(** * actitopo: the hardware-topology tree and its JSON element codec

    A shallow embedding of the Go package [actitopo]: the elements and
    their codec (element.go), the queries of the tree (tree.go), and the
    filters and the documents of a topology (topology.go).  Go values are
    modelled as follows.

    - [uint32], [uint64]: [N], with the truncation of a conversion written
      out; [int32]: [Z]; [int], taken to be 64 bits wide: [Z], or [nat]
      when it is a slice index produced by [range].
    - [string] and [[]byte]: [string] (a sequence of 8-bit characters).
    - a pointer that may be nil: [option].
    - [error]: the message carried by the error value.
    - a slice: [list]; indexing out of range is a run-time panic. *)

From Stdlib Require Import NArith ZArith Ascii String Lia Sorted.
From Stdlib Require Floats.SpecFloat.
From stdpp Require Import base decidable option list strings pretty gmap.

Local Open Scope string_scope.
#[local] Set Warnings "-register-all".

(** ** Outcomes of a call *)

Definition error := string.

(** The ways a call can abort instead of returning. *)
Inductive panic :=
| UNREACHABLE            (* panic("UNREACHABLE") *)
| index_out_of_range.    (* run-time error of a slice index *)

(** A call returns a value with a nil error ([Ok]), returns a non-nil error
    (every such return of the package pairs it with the zero value), panics,
    or has not finished when the loop budget of the model is used up. *)
Inductive outcome (A : Type) :=
| Ok (a : A)
| Err (e : error)
| Panic (p : panic)
| OutOfFuel.
Arguments Ok {A} a.
Arguments Err {A} e.
Arguments Panic {A} p.
Arguments OutOfFuel {A}.

Global Instance outcome_ret : MRet outcome := @Ok.
Global Instance outcome_bind : MBind outcome := λ A B f m,
  match m with
  | Ok a => f a
  | Err e => Err e
  | Panic p => Panic p
  | OutOfFuel => OutOfFuel
  end.

(** ** Enumerations (element.go)

    Both types are [byte] in the source; the named constants and the zero
    sentinel are the values the package itself produces. *)

Inductive ProcessingKind :=
| UnknownProcessingKind
| Package
| NUMANode
| Core
| Thread.

Inductive CacheLevel :=
| UnknownCacheLevel
| L1
| L2
| L3
| L4
| L5.

Global Instance ProcessingKind_eq_dec : EqDecision ProcessingKind.
Proof. solve_decision. Defined.
Global Instance CacheLevel_eq_dec : EqDecision CacheLevel.
Proof. solve_decision. Defined.

(** ** Elements (element.go) *)

Record Processing := {
  Kind : ProcessingKind;
  ID : N                              (* uint32 *)
}.

Record CacheAttributes := {
  Size : N;                           (* uint64 *)
  Linesize : N;                       (* uint32 *)
  Associativity : Z                   (* int32 *)
}.

Record Cache := {
  Level : CacheLevel;
  LogicalIndex : N;                   (* uint32 *)
  Attributes : option CacheAttributes (* *CacheAttributes *)
}.

(** [Element] embeds the two pointers [*Processing] and [*Cache]. *)
Record Element := {
  Element_Processing : option Processing;
  Element_Cache : option Cache
}.

Definition IsRoot (e : Element) : bool :=
  bool_decide (Element_Processing e = None) && bool_decide (Element_Cache e = None).

Definition IsProcessing (e : Element) : bool :=
  bool_decide (Element_Cache e = None) && negb (bool_decide (Element_Processing e = None)).

Definition IsCache (e : Element) : bool :=
  bool_decide (Element_Processing e = None) && negb (bool_decide (Element_Cache e = None)).

Global Instance Processing_eq_dec : EqDecision Processing.
Proof. solve_decision. Defined.
Global Instance CacheAttributes_eq_dec : EqDecision CacheAttributes.
Proof. solve_decision. Defined.
Global Instance Cache_eq_dec : EqDecision Cache.
Proof. solve_decision. Defined.

(** ** Byte strings: [strings.ToLower], [bytes.ToLower], [bytes.HasPrefix] *)

Definition dquote : ascii := "034"%char.

(** A JSON string token: the text between two double quotes. *)
Definition quoted (s : string) : string := String dquote (s ++ String dquote EmptyString).

Definition is_upper (c : ascii) : bool :=
  ((65 <=? N_of_ascii c) && (N_of_ascii c <=? 90))%N.

(** [c += 'a' - 'A'] for ['A' <= c <= 'Z']. *)
Definition lower_byte (c : ascii) : ascii :=
  if is_upper c then ascii_of_N (N_of_ascii c + 32) else c.

Definition upper_byte (c : ascii) : ascii :=
  if ((97 <=? N_of_ascii c) && (N_of_ascii c <=? 122))%N
  then ascii_of_N (N_of_ascii c - 32) else c.

(** [c < utf8.RuneSelf] for every byte. *)
Fixpoint isASCII (s : string) : bool :=
  match s with
  | EmptyString => true
  | String c s' => (N_of_ascii c <? 128)%N && isASCII s'
  end.

Fixpoint map_bytes (f : ascii → ascii) (s : string) : string :=
  match s with
  | EmptyString => EmptyString
  | String c s' => String (f c) (map_bytes f s')
  end.

Fixpoint HasPrefix (s prefix : string) {struct prefix} : bool :=
  match prefix, s with
  | EmptyString, _ => true
  | String p prefix', String c s' => bool_decide (c = p) && HasPrefix s' prefix'
  | String _ _, EmptyString => false
  end.

(** [%d] of an unsigned integer. *)
Definition fmt_d (n : N) : string := pretty n.

(** ** Values that encoding/json stores in an [interface{}] *)

Definition float64 : Type := SpecFloat.spec_float.

Inductive jvalue :=
| JNil
| JBool (b : bool)
| JFloat64 (f : float64)
| JString (s : string)
| JSlice (l : list jvalue)
| JMap (m : gmap string jvalue).

(** [v.(string)], [v.(float64)] and [v.(map[string]interface{})] in their
    two-result form; a key missing from a map reads as the nil interface. *)
Definition as_string (v : option jvalue) : option string :=
  match v with Some (JString s) => Some s | _ => None end.
Definition as_float64 (v : option jvalue) : option float64 :=
  match v with Some (JFloat64 f) => Some f | _ => None end.
Definition as_map (v : option jvalue) : option (gmap string jvalue) :=
  match v with Some (JMap m) => Some m | _ => None end.

(** ** Conversions of a float64 to an integer type *)

Inductive int_type := t_uint32 | t_uint64 | t_int32.

Definition int_min (ty : int_type) : Z :=
  match ty with t_int32 => (- 2 ^ 31)%Z | _ => 0%Z end.
Definition int_max (ty : int_type) : Z :=
  match ty with
  | t_uint32 => (2 ^ 32 - 1)%Z
  | t_uint64 => (2 ^ 64 - 1)%Z
  | t_int32 => (2 ^ 31 - 1)%Z
  end.

(** The value [z] reduced into the range of [ty] (two's complement). *)
Definition wrap (ty : int_type) (z : Z) : Z :=
  let w := (int_max ty - int_min ty + 1)%Z in
  ((z - int_min ty) mod w + int_min ty)%Z.

(** The fraction is discarded: truncation towards zero of
    [(-1)^s * m * 2^e]; NaN and the infinities have no integer value. *)
Definition float64_trunc (f : float64) : option Z :=
  match f with
  | SpecFloat.S754_zero _ => Some 0%Z
  | SpecFloat.S754_finite s m e =>
      let a := Z.shiftl (Z.pos m) e in
      Some (if s then (- a)%Z else a)
  | _ => None
  end.

(** What [MarshalJSON] stores under the one key of its map [raw]. *)
Inductive raw_entry :=
| raw_Cache (c : option Cache)
| raw_Processing (p : option Processing).

(** ** The element codec (element.go)

    What the package takes from outside is a parameter of this section:
    the Unicode case mapping that [strings.ToLower] and [bytes.ToLower]
    fall back to on input that is not pure ASCII, the generic decoder
    [json.Unmarshal(data, &raw)] into an [interface{}], the encoder
    [json.Marshal(raw)] of the map [MarshalJSON] builds, and the value a
    float64-to-integer conversion yields when the target type cannot
    represent the truncated value (the language leaves it to the
    implementation). *)
Section Codec.
Variable unicode_ToLower : string → string.
Variable json_Unmarshal : string → jvalue + error.
Variable json_Marshal : gmap string raw_entry → string * option error.
Variable float64_unrepresentable : int_type → float64 → Z.

(** [strings.ToLower] and [bytes.ToLower]: ASCII-only input is lowered
    byte by byte, anything else goes through the Unicode mapping. *)
Definition ToLower (s : string) : string :=
  if isASCII s then map_bytes lower_byte s else unicode_ToLower s.

(** [T(f)] for an integer type [T] and a float64 [f] that is not a
    constant. *)
Definition float64_to (ty : int_type) (f : float64) : Z :=
  match float64_trunc f with
  | Some z =>
      if ((int_min ty <=? z) && (z <=? int_max ty))%Z then z
      else wrap ty (float64_unrepresentable ty f)
  | None => wrap ty (float64_unrepresentable ty f)
  end.

Definition ProcessingKind_String (pk : ProcessingKind) : string :=
  match pk with
  | Package => "Package"
  | NUMANode => "NUMANode"
  | Core => "Core"
  | Thread => "Thread"
  | UnknownProcessingKind => "UnknownProcessingKind"
  end.

Definition ParseProcessingKind (str : string) : ProcessingKind * option error :=
  let lowered := ToLower str in
  if String.eqb lowered "package" then (Package, None)
  else if String.eqb lowered "numa_node" || String.eqb lowered "numanode"
  then (NUMANode, None)
  else if String.eqb lowered "core" then (Core, None)
  else if String.eqb lowered "thread" then (Thread, None)
  else (UnknownProcessingKind, Some ("unknown processing kind: '" ++ str ++ "'")).

Definition CacheLevel_String (cl : CacheLevel) : string :=
  match cl with
  | L1 => "L1"
  | L2 => "L2"
  | L3 => "L3"
  | L4 => "L4"
  | L5 => "L5"
  | UnknownCacheLevel => "Unknown cache level 0"
  end.

Definition ParseCacheLevel (level : string) : CacheLevel * option error :=
  if String.eqb level "L1" then (L1, None)
  else if String.eqb level "L2" then (L2, None)
  else if String.eqb level "L3" then (L3, None)
  else if String.eqb level "L4" then (L4, None)
  else if String.eqb level "L5" then (L5, None)
  else (UnknownCacheLevel, Some ("Unknown cache level '" ++ level ++ "'")).

(** [Element.MarshalJSON]: the bytes and the error returned. *)
Definition MarshalJSON (e : Element) : string * option error :=
  if IsRoot e then (quoted "machine", None)
  else if IsCache e then json_Marshal (<["cache" := raw_Cache (Element_Cache e)]> ∅)
  else if IsProcessing e then
    json_Marshal (<["processing" := raw_Processing (Element_Processing e)]> ∅)
  else ("", Some "Invalid Element").

(** [Element.UnmarshalJSON]: the receiver as the call leaves it, and the
    error returned ([None] for nil). *)
Definition UnmarshalJSON (e : Element) (data : string) : Element * option error :=
  if HasPrefix (ToLower data) (quoted "machine") then
    ({| Element_Processing := None; Element_Cache := None |}, None)
  else
    match json_Unmarshal data with
    | inr err => (e, Some err)
    | inl raw =>
      match raw with
      | JMap root =>
        match root !! "processing" with
        | Some content =>
          let e := {| Element_Processing := Element_Processing e; Element_Cache := None |} in
          match content with
          | JMap processing =>
            match as_string (processing !! "kind"), as_float64 (processing !! "id") with
            | Some kindStr, Some idF64 =>
              match ParseProcessingKind kindStr with
              | (_, Some err) =>
                  (e, Some ("failed to unmarshal Processing: failed to unmarshal ProcessingKind: " ++ err))
              | (kind, None) =>
                  ({| Element_Processing :=
                        Some {| Kind := kind; ID := Z.to_N (float64_to t_uint32 idF64) |};
                      Element_Cache := None |}, None)
              end
            | _, _ => (e, Some "failed to unmarshal Processing")
            end
          | _ => (e, Some "failed to unmarshal Processing")
          end
        | None =>
          match root !! "cache" with
          | Some content =>
            let e := {| Element_Processing := None; Element_Cache := Element_Cache e |} in
            match content with
            | JMap cache =>
              let level := as_string (cache !! "lvl") in
              let li := as_float64 (cache !! "li") in
              match as_map (cache !! "attrs") with
              | None => (e, Some "failed to unmarshal Cache")
              | Some attrsVal =>
                match level, li, as_float64 (attrsVal !! "size"),
                      as_float64 (attrsVal !! "line"), as_float64 (attrsVal !! "ways") with
                | Some levelStr, Some liF64, Some sizeF64, Some lineF64, Some waysF64 =>
                  match ParseCacheLevel levelStr with
                  | (_, Some err) =>
                      (e, Some ("failed to unmarshal Cache: failed to unmarshal CacheLevel: " ++ err))
                  | (cacheLevel, None) =>
                      ({| Element_Processing := None;
                          Element_Cache := Some
                            {| Level := cacheLevel;
                               LogicalIndex := Z.to_N (float64_to t_uint32 liF64);
                               Attributes := Some
                                 {| Size := Z.to_N (float64_to t_uint64 sizeF64);
                                    Linesize := Z.to_N (float64_to t_uint32 lineF64);
                                    Associativity := float64_to t_int32 waysF64 |} |} |}, None)
                  end
                | _, _, _, _, _ => (e, Some "failed to unmarshal Cache")
                end
              end
            | _ => (e, Some "failed to unmarshal Cache")
            end
          | None => (e, Some "failed to unmarshal Element")
          end
        end
      | _ => (e, Some "failed to unmarshal Element")
      end
    end.
End Codec.

(** ** The tree (tree.go) *)

(** [NodeID = uint32]. *)
Definition NodeID : Type := N.

(** [NodeID(i)] for an [int] index [i]: the low 32 bits. *)
Definition NodeID_of_int (i : nat) : NodeID := (N.of_nat i mod 2 ^ 32)%N.

Record TreeNode := {
  Data : option Element;              (* *Element *)
  Children : list NodeID
}.

Record Tree := {
  Nodes : list TreeNode
}.

(** The error values of tree.go, by their messages. *)
Definition errTreeIsNil : error := "Tree is nil".
Definition errTreeIsEmpty : error := "Tree is empty".
Definition errInvalidNodeID (id : NodeID) : error := "Invalid NodeID " ++ fmt_d id.
Definition errNoParent : error := "Root element does not have a parent".

(** [int(id) >= len(nodes)]. *)
Definition out_of_range (id : NodeID) (nodes : list TreeNode) : bool :=
  (Z.of_nat (length nodes) <=? Z.of_N id)%Z.

(** [nodes[id]]. *)
Definition index (nodes : list TreeNode) (id : NodeID) : outcome TreeNode :=
  match nodes !! N.to_nat id with
  | Some tn => Ok tn
  | None => Panic index_out_of_range
  end.

(** The methods of [*Tree]; a nil receiver is [None]. *)
Module Tree.

Definition Size (t : option Tree) : Z :=
  match t with
  | None => 0
  | Some t => Z.of_nat (length (Nodes t))
  end.

Definition IsEmpty (t : option Tree) : bool :=
  match t with
  | None => true
  | Some t => bool_decide (0 = length (Nodes t))
  end.

Definition Root (t : option Tree) : outcome (option Element) :=
  match t with
  | None => Err errTreeIsNil
  | Some t =>
      match Nodes t with
      | [] => Err errTreeIsEmpty
      | tn :: _ => Ok (Data tn)
      end
  end.

Definition Get (t : option Tree) (id : NodeID) : outcome (option Element) :=
  match t with
  | None => Err errTreeIsNil
  | Some t =>
      if out_of_range id (Nodes t) then Err (errInvalidNodeID id)
      else tn ← index (Nodes t) id; Ok (Data tn)
  end.

Definition ImmediateDescendantIDs (t : option Tree) (id : NodeID) : outcome (list NodeID) :=
  match t with
  | None => Err errTreeIsNil
  | Some t =>
      if out_of_range id (Nodes t) then Err (errInvalidNodeID id)
      else tn ← index (Nodes t) id; Ok (Children tn)
  end.

(** The loop of [ImmediateDescendants]: one [append] per child. *)
Fixpoint children_data (nodes : list TreeNode) (ids : list NodeID)
    (children : list (option Element)) : outcome (list (option Element)) :=
  match ids with
  | [] => Ok children
  | c :: ids' =>
      tn ← index nodes c; children_data nodes ids' (children ++ [Data tn])
  end.

Definition ImmediateDescendants (t : option Tree) (id : NodeID)
    : outcome (list (option Element)) :=
  match t with
  | None => Err errTreeIsNil
  | Some t =>
      if out_of_range id (Nodes t) then Err (errInvalidNodeID id)
      else tn ← index (Nodes t) id; children_data (Nodes t) (Children tn) []
  end.

(** The inner loop of the leaf traversals: every child is pushed, in the
    stored order, together with the node it indexes.  The head of the
    list is the top of the stack. *)
Fixpoint push_children (nodes : list TreeNode) (cs : list NodeID)
    (stack : list (NodeID * TreeNode)) : outcome (list (NodeID * TreeNode)) :=
  match cs with
  | [] => Ok stack
  | c :: cs' => tn ← index nodes c; push_children nodes cs' ((c, tn) :: stack)
  end.

(** [for len(stack) > 0 { ... }] of [LeafDescendantIDs]. *)
Fixpoint leafIDs_loop (fuel : nat) (nodes : list TreeNode)
    (stack : list (NodeID * TreeNode)) (leafIDs : list NodeID) : outcome (list NodeID) :=
  match stack with
  | [] => Ok leafIDs
  | (id, tn) :: stack' =>
      match fuel with
      | 0 => OutOfFuel
      | S fuel' =>
          match Children tn with
          | [] => leafIDs_loop fuel' nodes stack' (leafIDs ++ [id])
          | _ :: _ =>
              stack'' ← push_children nodes (Children tn) stack';
              leafIDs_loop fuel' nodes stack'' leafIDs
          end
      end
  end.

Definition LeafDescendantIDs (fuel : nat) (t : option Tree) (id : NodeID)
    : outcome (list NodeID) :=
  match t with
  | None => Err errTreeIsNil
  | Some t =>
      if out_of_range id (Nodes t) then Err (errInvalidNodeID id)
      else tn ← index (Nodes t) id; leafIDs_loop fuel (Nodes t) [(id, tn)] []
  end.

(** The inner loop of [LeafDescendants], whose stack holds the nodes
    alone. *)
Fixpoint push_child_nodes (nodes : list TreeNode) (cs : list NodeID)
    (stack : list TreeNode) : outcome (list TreeNode) :=
  match cs with
  | [] => Ok stack
  | c :: cs' => tn ← index nodes c; push_child_nodes nodes cs' (tn :: stack)
  end.

(** [for len(stack) > 0 { ... }] of [LeafDescendants]. *)
Fixpoint leaves_loop (fuel : nat) (nodes : list TreeNode)
    (stack : list TreeNode) (leaves : list (option Element))
    : outcome (list (option Element)) :=
  match stack with
  | [] => Ok leaves
  | last :: stack' =>
      match fuel with
      | 0 => OutOfFuel
      | S fuel' =>
          match Children last with
          | [] => leaves_loop fuel' nodes stack' (leaves ++ [Data last])
          | _ :: _ =>
              stack'' ← push_child_nodes nodes (Children last) stack';
              leaves_loop fuel' nodes stack'' leaves
          end
      end
  end.

Definition LeafDescendants (fuel : nat) (t : option Tree) (id : NodeID)
    : outcome (list (option Element)) :=
  match t with
  | None => Err errTreeIsNil
  | Some t =>
      if out_of_range id (Nodes t) then Err (errInvalidNodeID id)
      else tn ← index (Nodes t) id; leaves_loop fuel (Nodes t) [tn] []
  end.

(** The scan of [ParentID] and [Parent] over [nodes], whose first node
    has index [parentID]: the first node that lists [id], if any. *)
Fixpoint find_parent (id : NodeID) (nodes : list TreeNode) (parentID : nat)
    : option (nat * TreeNode) :=
  match nodes with
  | [] => None
  | tn :: nodes' =>
      if existsb (N.eqb id) (Children tn) then Some (parentID, tn)
      else find_parent id nodes' (S parentID)
  end.

Definition ParentID (t : option Tree) (id : NodeID) : outcome NodeID :=
  match t with
  | None => Err errTreeIsNil
  | Some t =>
      if out_of_range id (Nodes t) then Err (errInvalidNodeID id)
      else if (id =? 0)%N then Err errNoParent
      else match find_parent id (Nodes t) 0 with
           | Some (parentID, _) => Ok (NodeID_of_int parentID)
           | None => Panic UNREACHABLE
           end
  end.

Definition Parent (t : option Tree) (id : NodeID) : outcome (option Element) :=
  match t with
  | None => Err errTreeIsNil
  | Some t =>
      if out_of_range id (Nodes t) then Err (errInvalidNodeID id)
      else if (id =? 0)%N then Err errNoParent
      else match find_parent id (Nodes t) 0 with
           | Some (_, tn) => Ok (Data tn)
           | None => Panic UNREACHABLE
           end
  end.

(** [allAncestorIDs[c] = NodeID(parentID)] for every [c] of [cs]. *)
Fixpoint record_parent (parentID : nat) (cs : list NodeID)
    (allAncestorIDs : list NodeID) : outcome (list NodeID) :=
  match cs with
  | [] => Ok allAncestorIDs
  | c :: cs' =>
      if bool_decide (N.to_nat c < length allAncestorIDs) then
        record_parent parentID cs' (<[N.to_nat c := NodeID_of_int parentID]> allAncestorIDs)
      else Panic index_out_of_range
  end.

(** The table-building loops over [nodes], whose first node has index
    [parentID]. *)
Fixpoint record_parents (nodes : list TreeNode) (parentID : nat)
    (allAncestorIDs : list NodeID) : outcome (list NodeID) :=
  match nodes with
  | [] => Ok allAncestorIDs
  | tn :: nodes' =>
      allAncestorIDs' ← record_parent parentID (Children tn) allAncestorIDs;
      record_parents nodes' (S parentID) allAncestorIDs'
  end.

(** [make([]NodeID, len(t.Nodes))] filled by the two loops. *)
Definition parent_table (nodes : list TreeNode) : outcome (list NodeID) :=
  record_parents nodes 0 (replicate (length nodes) 0%N).

(** [for ; id != NodeID(0); id = allAncestorIDs[id] { ... }]. *)
Fixpoint ancestorIDs_loop (fuel : nat) (allAncestorIDs : list NodeID)
    (id : NodeID) (ancestorIDs : list NodeID) : outcome (list NodeID) :=
  if (id =? 0)%N then Ok ancestorIDs
  else match fuel with
       | 0 => OutOfFuel
       | S fuel' =>
           match allAncestorIDs !! N.to_nat id with
           | None => Panic index_out_of_range
           | Some p => ancestorIDs_loop fuel' allAncestorIDs p (ancestorIDs ++ [p])
           end
       end.

Definition AncestorIDs (fuel : nat) (t : option Tree) (id : NodeID)
    : outcome (list NodeID) :=
  match t with
  | None => Err errTreeIsNil
  | Some t =>
      if out_of_range id (Nodes t) then Err (errInvalidNodeID id)
      else allAncestorIDs ← parent_table (Nodes t);
           ancestorIDs_loop fuel allAncestorIDs id []
  end.

Fixpoint ancestors_loop (fuel : nat) (nodes : list TreeNode)
    (allAncestorIDs : list NodeID) (id : NodeID)
    (ancestors : list (option Element)) : outcome (list (option Element)) :=
  if (id =? 0)%N then Ok ancestors
  else match fuel with
       | 0 => OutOfFuel
       | S fuel' =>
           match allAncestorIDs !! N.to_nat id with
           | None => Panic index_out_of_range
           | Some p =>
               tn ← index nodes p;
               ancestors_loop fuel' nodes allAncestorIDs p (ancestors ++ [Data tn])
           end
       end.

Definition Ancestors (fuel : nat) (t : option Tree) (id : NodeID)
    : outcome (list (option Element)) :=
  match t with
  | None => Err errTreeIsNil
  | Some t =>
      if out_of_range id (Nodes t) then Err (errInvalidNodeID id)
      else allAncestorIDs ← parent_table (Nodes t);
           ancestors_loop fuel (Nodes t) allAncestorIDs id []
  end.

End Tree.

(** ** The topology (topology.go) *)

(** [Topology] embeds the pointer [*Tree]. *)
Record Topology := {
  Topology_Tree : option Tree
}.

(** The loop of [getAllProcessingKind] over [nodes], whose first node has
    index [id].  The loop calls [IsProcessing] on the element of every
    node and reads its kind; [None] is the run-time panic of a nil
    pointer dereference. *)
Fixpoint getAllProcessingKind_loop (nodes : list TreeNode) (id : nat)
    (kind : ProcessingKind) (ret : list NodeID) : option (list NodeID) :=
  match nodes with
  | [] => Some ret
  | tn :: nodes' =>
      match Data tn with
      | None => None
      | Some e =>
          if IsProcessing e then
            match Element_Processing e with
            | None => None
            | Some p =>
                if bool_decide (Kind p = kind)
                then getAllProcessingKind_loop nodes' (S id) kind (ret ++ [NodeID_of_int id])
                else getAllProcessingKind_loop nodes' (S id) kind ret
            end
          else getAllProcessingKind_loop nodes' (S id) kind ret
      end
  end.

Definition getAllProcessingKind (t : Topology) (kind : ProcessingKind)
    : option (list NodeID) :=
  match Topology_Tree t with
  | None => None
  | Some tree => getAllProcessingKind_loop (Nodes tree) 0 kind []
  end.

Definition Packages (t : Topology) : option (list NodeID) := getAllProcessingKind t Package.
Definition NUMANodes (t : Topology) : option (list NodeID) := getAllProcessingKind t NUMANode.
Definition Cores (t : Topology) : option (list NodeID) := getAllProcessingKind t Core.
Definition Threads (t : Topology) : option (list NodeID) := getAllProcessingKind t Thread.

(** The loop of [getAllCacheLevel]. *)
Fixpoint getAllCacheLevel_loop (nodes : list TreeNode) (id : nat)
    (level : CacheLevel) (ret : list NodeID) : option (list NodeID) :=
  match nodes with
  | [] => Some ret
  | tn :: nodes' =>
      match Data tn with
      | None => None
      | Some e =>
          if IsCache e then
            match Element_Cache e with
            | None => None
            | Some c =>
                if bool_decide (Level c = level)
                then getAllCacheLevel_loop nodes' (S id) level (ret ++ [NodeID_of_int id])
                else getAllCacheLevel_loop nodes' (S id) level ret
            end
          else getAllCacheLevel_loop nodes' (S id) level ret
      end
  end.

Definition getAllCacheLevel (t : Topology) (level : CacheLevel)
    : option (list NodeID) :=
  match Topology_Tree t with
  | None => None
  | Some tree => getAllCacheLevel_loop (Nodes tree) 0 level []
  end.

Definition L1Caches (t : Topology) : option (list NodeID) := getAllCacheLevel t L1.
Definition L2Caches (t : Topology) : option (list NodeID) := getAllCacheLevel t L2.
Definition L3Caches (t : Topology) : option (list NodeID) := getAllCacheLevel t L3.
Definition L4Caches (t : Topology) : option (list NodeID) := getAllCacheLevel t L4.
Definition L5Caches (t : Topology) : option (list NodeID) := getAllCacheLevel t L5.

(** ** String forms of the elements (element.go) *)

(** [%d] of a signed integer. *)
Definition fmt_dZ (z : Z) : string := pretty z.

(** [CacheAttributes.String]: ["%dB/%dB/%d-way"]. *)
Definition CacheAttributes_String (ca : CacheAttributes) : string :=
  fmt_d (Size ca) ++ "B/" ++ fmt_d (Linesize ca) ++ "B/" ++ fmt_dZ (Associativity ca) ++ "-way".

(** [Processing.String]: ["%s(%d)"]. *)
Definition Processing_String (p : Processing) : string :=
  ProcessingKind_String (Kind p) ++ "(" ++ fmt_d (ID p) ++ ")".

(** [Cache.String]: ["Cache{ %s(L#%d), attrs: %s }"]; the verb [%s] prints
    a nil pointer to a Stringer as [<nil>]. *)
Definition Cache_String (c : Cache) : string :=
  "Cache{ " ++ CacheLevel_String (Level c) ++ "(L#" ++ fmt_d (LogicalIndex c) ++ "), attrs: "
    ++ match Attributes c with
       | Some ca => CacheAttributes_String ca
       | None => "<nil>"
       end ++ " }".

(** [Element.String]. *)
Definition Element_String (e : Element) : outcome string :=
  if IsRoot e then Ok "Machine"
  else if IsCache e then
    match Element_Cache e with
    | Some c => Ok (Cache_String c)
    | None => Ok "<nil>"
    end
  else if IsProcessing e then
    match Element_Processing e with
    | Some p => Ok (Processing_String p)
    | None => Ok "<nil>"
    end
  else Panic UNREACHABLE.

(** ** The document of a topology (topology.go, tree.go)

    [Topology.MarshalJSON] and [Topology.UnmarshalJSON] hand the tree to
    encoding/json, which walks [Tree] and [TreeNode] by their tags and
    calls the methods of [Element] on the member "data" of every node. *)

(** The float64 nearest to an integer, ties to even: what
    [json.Unmarshal] stores in an [interface{}] for an integer literal. *)
Definition float64_of_Z (z : Z) : float64 := SpecFloat.binary_normalize 53 1024 z 0 false.

(** A node of a document: the text of its member "data", [None] when the
    member is [null] or missing, and the numbers of its member "desc",
    none when the member is missing. *)
Record node_document := {
  document_data : option string;
  document_desc : list NodeID
}.

(** A document: [null], or an object with the nodes of its member
    "nodes". *)
Definition document : Type := option (list node_document).

Section Document.
Variable unicode_ToLower : string → string.
Variable json_Unmarshal : string → jvalue + error.
Variable json_Marshal : gmap string raw_entry → string * option error.
Variable float64_unrepresentable : int_type → float64 → Z.

(** What [json.Unmarshal] into an [interface{}] reads from the text that
    [json.Marshal] writes for a value of the package.  The members are
    named by the tags of [Processing], [Cache] and [CacheAttributes]; a
    kind is written by [ProcessingKind.MarshalJSON] as its lowered name, a
    level by [CacheLevel.MarshalJSON] as its name; an integer is written
    in decimal and read as the nearest float64; a nil pointer is written
    as [null]. *)
Definition read_back_Processing (p : Processing) : jvalue :=
  JMap (<["kind" := JString (ToLower unicode_ToLower (ProcessingKind_String (Kind p)))]>
        (<["id" := JFloat64 (float64_of_Z (Z.of_N (ID p)))]> ∅)).

Definition read_back_CacheAttributes (ca : CacheAttributes) : jvalue :=
  JMap (<["size" := JFloat64 (float64_of_Z (Z.of_N (Size ca)))]>
        (<["line" := JFloat64 (float64_of_Z (Z.of_N (Linesize ca)))]>
         (<["ways" := JFloat64 (float64_of_Z (Associativity ca))]> ∅))).

Definition read_back_Cache (c : Cache) : jvalue :=
  JMap (<["lvl" := JString (CacheLevel_String (Level c))]>
        (<["li" := JFloat64 (float64_of_Z (Z.of_N (LogicalIndex c)))]>
         (<["attrs" := match Attributes c with
                       | Some ca => read_back_CacheAttributes ca
                       | None => JNil
                       end]> ∅))).

Definition read_back (r : raw_entry) : jvalue :=
  match r with
  | raw_Cache (Some c) => read_back_Cache c
  | raw_Processing (Some p) => read_back_Processing p
  | raw_Cache None | raw_Processing None => JNil
  end.

(** The encoder and the decoder agree on the map [raw]: [json.Marshal]
    writes it without error as an object in ASCII, and [json.Unmarshal]
    reads that text as above. *)
Definition reads_back (raw : gmap string raw_entry) : Prop :=
  ∃ text, json_Marshal raw = (text, None)
    ∧ isASCII text = true
    ∧ HasPrefix text "{" = true
    ∧ json_Unmarshal text = inl (JMap (read_back <$> raw)).

(** [json.Unmarshal] on a node: a "data" that is not [null] goes to
    [UnmarshalJSON] of a new element, whose error ends the decoding. *)
Definition decode_node (nd : node_document) : TreeNode + error :=
  match document_data nd with
  | None => inl {| Data := None; Children := document_desc nd |}
  | Some text =>
      match UnmarshalJSON unicode_ToLower json_Unmarshal float64_unrepresentable
              {| Element_Processing := None; Element_Cache := None |} text with
      | (e, None) => inl {| Data := Some e; Children := document_desc nd |}
      | (_, Some err) => inr err
      end
  end.

Fixpoint decode_nodes (nds : list node_document) : list TreeNode + error :=
  match nds with
  | [] => inl []
  | nd :: nds' =>
      match decode_node nd with
      | inr err => inr err
      | inl tn =>
          match decode_nodes nds' with
          | inr err => inr err
          | inl tns => inl (tn :: tns)
          end
      end
  end.

(** [Topology.UnmarshalJSON] on a new topology:
    [json.Unmarshal(data, &t.Tree)]. *)
Definition Topology_UnmarshalJSON (doc : document) : Topology + error :=
  match doc with
  | None => inl {| Topology_Tree := None |}
  | Some nds =>
      match decode_nodes nds with
      | inr err => inr err
      | inl tns => inl {| Topology_Tree := Some {| Nodes := tns |} |}
      end
  end.

(** [json.Marshal] on a node: a nil element is written as [null], any
    other by [MarshalJSON], whose error ends the encoding. *)
Definition encode_node (tn : TreeNode) : node_document + error :=
  match Data tn with
  | None => inl {| document_data := None; document_desc := Children tn |}
  | Some e =>
      match MarshalJSON json_Marshal e with
      | (text, None) => inl {| document_data := Some text; document_desc := Children tn |}
      | (_, Some err) =>
          inr ("json: error calling MarshalJSON for type *actitopo.Element: " ++ err)
      end
  end.

Fixpoint encode_nodes (tns : list TreeNode) : list node_document + error :=
  match tns with
  | [] => inl []
  | tn :: tns' =>
      match encode_node tn with
      | inr err => inr err
      | inl nd =>
          match encode_nodes tns' with
          | inr err => inr err
          | inl nds => inl (nd :: nds)
          end
      end
  end.

(** [Topology.MarshalJSON]: [json.Marshal(t.Tree)]. *)
Definition Topology_MarshalJSON (t : Topology) : document + error :=
  match Topology_Tree t with
  | None => inl None
  | Some tree =>
      match encode_nodes (Nodes tree) with
      | inr err => inr err
      | inl nds => inl (Some nds)
      end
  end.
End Document.

(** ** A scenario for the round trip

    A machine with one core and one L1 cache, in documents that differ in
    the size of the cache. *)

(** Results of out-of-range conversions.  The language leaves them to the
    implementation; these are the ones of the conversion instructions of
    x86-64 as the code of the gc compiler for amd64 uses them: the
    truncated value when it fits 64 signed bits and the pattern of
    [- 2 ^ 63] otherwise, of which the target type keeps its low bits
    ([uint64(-1.0)] is [2 ^ 64 - 1], [uint64] of a value from [2 ^ 64] on
    is [2 ^ 63]); [int32] has an instruction of its own, which yields
    [- 2 ^ 31]. *)
Definition amd64_unrepresentable (ty : int_type) (f : float64) : Z :=
  match ty, float64_trunc f with
  | t_int32, _ => (- 2 ^ 31)%Z
  | _, Some z => if ((- 2 ^ 63 <=? z) && (z <? 2 ^ 63))%Z then z else (- 2 ^ 63)%Z
  | _, None => (- 2 ^ 63)%Z
  end.

Global Instance raw_entry_eq_dec : EqDecision raw_entry.
Proof. solve_decision. Defined.

Definition scenario_core : Processing := {| Kind := Core; ID := 0 |}.

Definition scenario_cache (size : N) : Cache :=
  {| Level := L1; LogicalIndex := 0;
     Attributes := Some {| Size := size; Linesize := 64; Associativity := 8 |} |}.

(** The texts of the two elements, the second with the size as it is
    written: [{"processing":{"kind":"core","id":0}}] and
    [{"cache":{"lvl":"L1","li":0,"attrs":{"size":N,"line":64,"ways":8}}}]. *)
Definition scenario_core_text : string :=
  "{" ++ quoted "processing" ++ ":{" ++ quoted "kind" ++ ":" ++ quoted "core" ++ ","
      ++ quoted "id" ++ ":0}}".

Definition scenario_cache_text (size : string) : string :=
  "{" ++ quoted "cache" ++ ":{" ++ quoted "lvl" ++ ":" ++ quoted "L1" ++ ","
      ++ quoted "li" ++ ":0," ++ quoted "attrs" ++ ":{" ++ quoted "size" ++ ":" ++ size ++ ","
      ++ quoted "line" ++ ":64," ++ quoted "ways" ++ ":8}}}".

(** What [json.Unmarshal] stores for the two texts, every number as the
    nearest float64. *)
Definition scenario_core_object : gmap string jvalue :=
  <["processing" := JMap (<["kind" := JString "core"]>
                          (<["id" := JFloat64 (float64_of_Z 0)]> ∅))]> ∅.

Definition scenario_cache_object (size : Z) : gmap string jvalue :=
  <["cache" :=
      JMap (<["lvl" := JString "L1"]>
            (<["li" := JFloat64 (float64_of_Z 0)]>
             (<["attrs" :=
                  JMap (<["size" := JFloat64 (float64_of_Z size)]>
                        (<["line" := JFloat64 (float64_of_Z 64)]>
                         (<["ways" := JFloat64 (float64_of_Z 8)]> ∅)))]> ∅)))]> ∅.

(** The encoder and the decoder on the values and the texts of the
    scenario. *)
Definition scenario_json_Marshal (raw : gmap string raw_entry) : string * option error :=
  if decide (raw !! "processing" = Some (raw_Processing (Some scenario_core)))
  then (scenario_core_text, None)
  else if decide (raw !! "cache" = Some (raw_Cache (Some (scenario_cache 32768))))
  then (scenario_cache_text "32768", None)
  else if decide (raw !! "cache" = Some (raw_Cache (Some (scenario_cache (2 ^ 64 - 1)))))
  then (scenario_cache_text "18446744073709551615", None)
  else ("", Some "json: unsupported value").

Definition scenario_json_Unmarshal (data : string) : jvalue + error :=
  if String.eqb data scenario_core_text then inl (JMap scenario_core_object)
  else if String.eqb data (scenario_cache_text "32768")
  then inl (JMap (scenario_cache_object 32768))
  else if String.eqb data (scenario_cache_text "18446744073709551615")
  then inl (JMap (scenario_cache_object (2 ^ 64 - 1)))
  else if String.eqb data (scenario_cache_text "-1")
  then inl (JMap (scenario_cache_object (-1)))
  else inr "invalid character".

(** The document and the topology of the scenario. *)
Definition scenario_document (size : string) : document :=
  Some [ {| document_data := Some (quoted "machine"); document_desc := [1%N] |};
         {| document_data := Some scenario_core_text; document_desc := [2%N] |};
         {| document_data := Some (scenario_cache_text size); document_desc := [] |} ].

Definition scenario_topology (size : N) : Topology :=
  {| Topology_Tree := Some
       {| Nodes := [ {| Data := Some {| Element_Processing := None; Element_Cache := None |};
                        Children := [1%N] |};
                     {| Data := Some {| Element_Processing := Some scenario_core;
                                        Element_Cache := None |};
                        Children := [2%N] |};
                     {| Data := Some {| Element_Processing := None;
                                        Element_Cache := Some (scenario_cache size) |};
                        Children := [] |} ] |} |}.

(** ** The vocabulary of the specification *)

Local Close Scope string_scope.

Definition node_count (t : Tree) : N := N.of_nat (length (Nodes t)).

(** Node [p] lists [c] as a child. *)
Definition child_of (t : Tree) (p c : NodeID) : Prop :=
  ∃ tn, Nodes t !! N.to_nat p = Some tn ∧ c ∈ Children tn.

(** [x] is a leaf: a node with an empty child list. *)
Definition is_leaf (t : Tree) (x : NodeID) : Prop :=
  ∃ tn, Nodes t !! N.to_nat x = Some tn ∧ Children tn = [].

(** [x] lies in the subtree rooted at [a]. *)
Inductive descendant (t : Tree) (a : NodeID) : NodeID → Prop :=
| descendant_refl : descendant t a a
| descendant_step p c : descendant t a p → child_of t p c → descendant t a c.

(** [depth t n d]: [n] is [d] child steps away from the root. *)
Inductive depth (t : Tree) : NodeID → nat → Prop :=
| depth_root : depth t 0%N 0
| depth_child p c d : depth t p d → child_of t p c → depth t c (S d).

(** [l] is the chain of proper ancestors of [n]: its parent first, then the
    parent of each entry, ending with the root. *)
Fixpoint ancestor_chain (t : Tree) (n : NodeID) (l : list NodeID) : Prop :=
  match l with
  | [] => n = 0%N
  | p :: l' => child_of t p n ∧ ancestor_chain t p l'
  end.

(** The child IDs are values of the type [uint32]. *)
Definition NodeIDs_uint32 (t : Tree) : Prop :=
  ∀ p c, child_of t p c → (c < 2 ^ 32)%N.

(** Every child ID is the ID of a node. *)
Definition children_in_bounds (t : Tree) : Prop :=
  ∀ p c, child_of t p c → (c < node_count t)%N.

(** The unique-parent invariant: every node other than node 0 is listed by
    exactly one node, and node 0 by none. *)
Definition unique_parent (t : Tree) : Prop :=
  (∀ n, (0 < n < node_count t)%N →
        ∃ p, child_of t p n ∧ ∀ q, child_of t q n → q = p)
  ∧ (∀ p, ¬ child_of t p 0%N).

(** A valid tree: the invariants of the data model.  The sequence is not
    empty; node 0 has no parent and every other node exactly one, which
    lists it once; the child relation connects every node to the root. *)
Record valid_tree (t : Tree) : Prop := {
  valid_uint32 : NodeIDs_uint32 t;
  valid_nonempty : Nodes t ≠ [];
  valid_in_bounds : children_in_bounds t;
  valid_unique_parent : unique_parent t;
  valid_listed_once : ∀ tn, tn ∈ Nodes t → NoDup (Children tn);
  valid_connected : ∀ n, (n < node_count t)%N → descendant t 0%N n
}.

(** The error kinds of the specification, as sets of messages. *)
Definition InvalidNodeID (e : error) : Prop := ∃ id, e = errInvalidNodeID id.
Definition EmptyOrNilTree (e : error) : Prop := e = errTreeIsNil ∨ e = errTreeIsEmpty.
Definition NoParent (e : error) : Prop := e = errNoParent.

(** Each of the nine bounds-checked queries returns the error [e]. *)
Definition queries_fail (fuel : nat) (t : option Tree) (id : NodeID) (e : error) : Prop :=
  Tree.Get t id = Err e
  ∧ Tree.ImmediateDescendantIDs t id = Err e
  ∧ Tree.ImmediateDescendants t id = Err e
  ∧ Tree.LeafDescendantIDs fuel t id = Err e
  ∧ Tree.LeafDescendants fuel t id = Err e
  ∧ Tree.ParentID t id = Err e
  ∧ Tree.Parent t id = Err e
  ∧ Tree.AncestorIDs fuel t id = Err e
  ∧ Tree.Ancestors fuel t id = Err e.

(** [s] is [t] with some of its letters in upper case. *)
Fixpoint casing_of (t s : string) : bool :=
  match t, s with
  | EmptyString, EmptyString => true
  | String a t', String b s' =>
      (bool_decide (b = a) || bool_decide (b = upper_byte a)) && casing_of t' s'
  | _, _ => false
  end.

(** The root element: both pointers nil. *)
Definition Root_element : Element :=
  {| Element_Processing := None; Element_Cache := None |}.

(** The scenario of the specification: a machine with two NUMA nodes, the
    first of which holds one core. *)
Definition Processing_element (k : ProcessingKind) (i : N) : Element :=
  {| Element_Processing := Some {| Kind := k; ID := i |}; Element_Cache := None |}.

Definition example_tree : Tree :=
  {| Nodes := [ {| Data := Some Root_element; Children := [1; 2]%N |};
                {| Data := Some (Processing_element NUMANode 0); Children := [3%N] |};
                {| Data := Some (Processing_element NUMANode 1); Children := [] |};
                {| Data := Some (Processing_element Core 0); Children := [] |} ] |}.

(** Three nodes that satisfy the unique-parent invariant and do not form
    a tree: nodes 1 and 2 list each other, and nothing connects them to
    the root. *)
Definition cyclic_tree : Tree :=
  {| Nodes := [ {| Data := Some Root_element; Children := [] |};
                {| Data := Some (Processing_element Core 0); Children := [2%N] |};
                {| Data := Some (Processing_element Core 1); Children := [1%N] |} ] |}.

(** A non-nil tree without nodes, as decoded from the document [{}]. *)
Definition empty_tree : Tree := {| Nodes := [] |}.

(** A one-node tree whose root names a child that does not exist. *)
Definition dangling_tree : Tree :=
  {| Nodes := [ {| Data := Some Root_element; Children := [5%N] |} ] |}.

(** Two nodes, the root listing node 1 twice: the sequence is not empty,
    node 0 is listed by no node, node 1 by exactly one, and the child
    relation connects both to the root without a cycle. *)
Definition repeated_child_tree : Tree :=
  {| Nodes := [ {| Data := Some Root_element; Children := [1; 1]%N |};
                {| Data := Some (Processing_element Core 0); Children := [] |} ] |}.

(** The invariant of the loop of [LeafDescendantIDs n]: [stack] and
    [leafIDs] are the variables of the loop, [popped] lists the nodes the
    loop has taken off the stack so far. *)
Record traversal_inv (t : Tree) (n : NodeID)
    (stack : list (NodeID * TreeNode)) (popped leafIDs : list NodeID) : Prop := {
  inv_nodes : ∀ y tn, (y, tn) ∈ stack → Nodes t !! N.to_nat y = Some tn;
  inv_NoDup : NoDup (stack.*1 ++ popped);
  inv_descendant : ∀ y, y ∈ stack.*1 ++ popped → descendant t n y;
  inv_closed : ∀ y c, y ∈ popped → child_of t y c → c ∈ stack.*1 ++ popped;
  inv_parent : ∀ y, y ∈ stack.*1 ++ popped → y ≠ n → ∃ p, p ∈ popped ∧ child_of t p y;
  inv_start : n ∈ stack.*1 ++ popped;
  inv_leafIDs_NoDup : NoDup leafIDs;
  inv_leafIDs : ∀ y, y ∈ leafIDs ↔ y ∈ popped ∧ is_leaf t y
}.

(** Text made of ASCII characters none of which is an upper-case letter. *)
Fixpoint lowercase_ascii (t : string) : bool :=
  match t with
  | EmptyString => true
  | String a t' => (N_of_ascii a <? 128)%N && negb (is_upper a) && lowercase_ascii t'
  end.

(** A JSON object that holds both keys, and a text that denotes it:
    [{"processing":{"kind":"core","id":0},"cache":{}}]. *)
Definition both_keys_object : gmap string jvalue :=
  <["processing" := JMap (<["kind" := JString "core"]>
                          (<["id" := JFloat64 (SpecFloat.S754_zero false)]> ∅))]>
    (<["cache" := JMap ∅]> ∅).

Definition both_keys_text : string :=
  ("{" ++ quoted "processing" ++ ":{" ++ quoted "kind" ++ ":" ++ quoted "core" ++ ","
       ++ quoted "id" ++ ":0}," ++ quoted "cache" ++ ":{}}")%string.

(** The element stored under an ID, nil when there is no such node. *)
Definition data_of (nodes : list TreeNode) (id : NodeID) : option Element :=
  match nodes !! N.to_nat id with
  | Some tn => Data tn
  | None => None
  end.

(** [id] is the ID of a node. *)
Definition in_bounds (nodes : list TreeNode) (id : NodeID) : bool :=
  bool_decide (N.to_nat id < length nodes).

Global Instance outcome_fmap : FMap outcome := λ A B f m,
  match m with
  | Ok a => Ok (f a)
  | Err e => Err e
  | Panic p => Panic p
  | OutOfFuel => OutOfFuel
  end.

(** The element of a node is set and has exactly one of its two pointers
    set, or none: it is the root, a processing element or a cache. *)
Definition well_tagged (e : Element) : Prop :=
  Element_Processing e = None ∨ Element_Cache e = None.

(** The node holds a processing element of the given kind, and a cache of
    the given level. *)
Definition processing_of_kind (kind : ProcessingKind) (tn : TreeNode) : Prop :=
  ∃ e p, Data tn = Some e ∧ IsProcessing e = true
         ∧ Element_Processing e = Some p ∧ Kind p = kind.

Definition cache_of_level (level : CacheLevel) (tn : TreeNode) : Prop :=
  ∃ e c, Data tn = Some e ∧ IsCache e = true
         ∧ Element_Cache e = Some c ∧ Level c = level.

(** The shape the two filter loops share: [test] is what the loop asks of
    an element, [None] when asking dereferences a nil pointer. *)
Fixpoint filter_loop (test : Element → option bool) (nodes : list TreeNode) (id : nat)
    (ret : list NodeID) : option (list NodeID) :=
  match nodes with
  | [] => Some ret
  | tn :: nodes' =>
      match Data tn with
      | None => None
      | Some e =>
          match test e with
          | None => None
          | Some true => filter_loop test nodes' (S id) (ret ++ [NodeID_of_int id])
          | Some false => filter_loop test nodes' (S id) ret
          end
      end
  end.

Definition test_kind (kind : ProcessingKind) (e : Element) : option bool :=
  if IsProcessing e then
    match Element_Processing e with
    | None => None
    | Some p => Some (bool_decide (Kind p = kind))
    end
  else Some false.

Definition test_level (level : CacheLevel) (e : Element) : option bool :=
  if IsCache e then
    match Element_Cache e with
    | None => None
    | Some c => Some (bool_decide (Level c = level))
    end
  else Some false.

(** The topology of the scenario. *)
Definition example_topology : Topology := {| Topology_Tree := Some example_tree |}.

(** What a decoded element looks like: the root, or a processing element
    of a known kind, or a cache of a known level with its attributes; every
    number within the width of its field. *)
Definition decoded_element (e : Element) : Prop :=
  match Element_Processing e, Element_Cache e with
  | None, None => True
  | Some p, None => Kind p ≠ UnknownProcessingKind ∧ (ID p < 2 ^ 32)%N
  | None, Some c =>
      Level c ≠ UnknownCacheLevel ∧ (LogicalIndex c < 2 ^ 32)%N
      ∧ ∃ ca, Attributes c = Some ca
          ∧ (Size ca < 2 ^ 64)%N ∧ (Linesize ca < 2 ^ 32)%N
          ∧ (- 2 ^ 31 <= Associativity ca < 2 ^ 31)%Z
  | Some _, Some _ => False
  end.

(** The spellings [ParseProcessingKind] accepts, lowered. *)
Definition kind_spellings : list string :=
  ["package"; "numa_node"; "numanode"; "core"; "thread"]%string.

(** A JSON object that holds a cache, and a text that denotes it:
    [{"cache":{"lvl":"L1","li":0,"attrs":{"size":0,"line":0,"ways":0}}}]. *)
Definition cache_object : gmap string jvalue :=
  <["cache" :=
      JMap (<["lvl" := JString "L1"]>
            (<["li" := JFloat64 (SpecFloat.S754_zero false)]>
             (<["attrs" :=
                  JMap (<["size" := JFloat64 (SpecFloat.S754_zero false)]>
                        (<["line" := JFloat64 (SpecFloat.S754_zero false)]>
                         (<["ways" := JFloat64 (SpecFloat.S754_zero false)]> ∅)))]> ∅)))]> ∅.

Definition cache_text : string :=
  ("{" ++ quoted "cache" ++ ":{" ++ quoted "lvl" ++ ":" ++ quoted "L1" ++ ","
       ++ quoted "li" ++ ":0," ++ quoted "attrs" ++ ":{" ++ quoted "size" ++ ":0,"
       ++ quoted "line" ++ ":0," ++ quoted "ways" ++ ":0}}}")%string.

(** An integer that a float64 holds exactly: reading its decimal form
    gives a float64 of the same value. *)
Definition exactly_representable (z : Z) : Prop :=
  float64_trunc (float64_of_Z z) = Some z.

(** The elements of the nodes of a topology. *)
Definition elements (t : Topology) : list Element :=
  match Topology_Tree t with
  | Some tree => omap Data (Nodes tree)
  | None => []
  end.

(** Every cache size of the topology is held exactly by a float64. *)
Definition sizes_representable (t : Topology) : Prop :=
  ∀ e c ca, e ∈ elements t → Element_Cache e = Some c → Attributes c = Some ca →
    exactly_representable (Z.of_N (Size ca)).

(** The encoder and the decoder agree on the maps that [MarshalJSON]
    builds for the elements of the topology. *)
Definition codec_reads_back (unicode_ToLower : string → string)
    (json_Unmarshal : string → jvalue + error)
    (json_Marshal : gmap string raw_entry → string * option error)
    (t : Topology) : Prop :=
  ∀ e, e ∈ elements t →
    (∀ c, Element_Cache e = Some c →
       reads_back unicode_ToLower json_Unmarshal json_Marshal
         (<["cache"%string := raw_Cache (Some c)]> ∅))
    ∧ (∀ p, Element_Processing e = Some p →
         reads_back unicode_ToLower json_Unmarshal json_Marshal
           (<["processing"%string := raw_Processing (Some p)]> ∅)).

(** The parent edges of a tree, node by node. *)
Definition edges (t : Tree) : list (NodeID * NodeID) :=
  mjoin (imap (λ i tn, (λ c, (N.of_nat i, c)) <$> Children tn) (Nodes t)).

(** * Properties *)

(** ** The guard of the bounds-checked queries *)

Lemma out_of_range_ge (id : NodeID) (nodes : list TreeNode) :
  (N.of_nat (length nodes) <= id)%N → out_of_range id nodes = true.
Proof. intros H. unfold out_of_range. apply Z.leb_le. lia. Qed.

Lemma out_of_range_lt (id : NodeID) (nodes : list TreeNode) :
  (id < N.of_nat (length nodes))%N → out_of_range id nodes = false.
Proof. intros H. unfold out_of_range. apply Z.leb_gt. lia. Qed.

Lemma index_in_range (nodes : list TreeNode) (id : NodeID) :
  (id < N.of_nat (length nodes))%N → ∃ tn, nodes !! N.to_nat id = Some tn ∧ index nodes id = Ok tn.
Proof.
  intros H. destruct (lookup_lt_is_Some_2 nodes (N.to_nat id)) as [tn Htn]; [lia|].
  exists tn. split; [done|]. unfold index. by rewrite Htn.
Qed.

Lemma errInvalidNodeID_not_EmptyOrNilTree (id : NodeID) :
  ¬ EmptyOrNilTree (errInvalidNodeID id).
Proof. intros [H|H]; discriminate H. Qed.

(** C4 (amended). An id that is not below the node count makes each of the
    nine bounds-checked queries fail with "Invalid NodeID <id>", also on a
    non-nil tree without nodes, where that holds for every id; a nil tree
    makes each of them fail with "Tree is nil", a different error; [Size]
    and [IsEmpty] return 0 and true on a nil tree and on a tree without
    nodes. *)
Theorem bounds_checked_queries (fuel : nat) (t : Tree) (id : NodeID) :
  (node_count t <= id)%N →
  queries_fail fuel (Some t) id (errInvalidNodeID id)
  ∧ InvalidNodeID (errInvalidNodeID id)
  ∧ queries_fail fuel None id errTreeIsNil
  ∧ EmptyOrNilTree errTreeIsNil
  ∧ ¬ EmptyOrNilTree (errInvalidNodeID id)
  ∧ Tree.Size None = 0%Z ∧ Tree.IsEmpty None = true
  ∧ (Nodes t = [] → Tree.Size (Some t) = 0%Z ∧ Tree.IsEmpty (Some t) = true).
Proof.
  intros Hid. apply out_of_range_ge in Hid.
  split_and!.
  - unfold queries_fail, Tree.Get, Tree.ImmediateDescendantIDs, Tree.ImmediateDescendants,
      Tree.LeafDescendantIDs, Tree.LeafDescendants, Tree.ParentID, Tree.Parent,
      Tree.AncestorIDs, Tree.Ancestors.
    rewrite Hid. by split_and!.
  - by exists id.
  - by split_and!.
  - by left.
  - apply errInvalidNodeID_not_EmptyOrNilTree.
  - done.
  - done.
  - intros Hnil. unfold Tree.Size, Tree.IsEmpty. by rewrite Hnil.
Qed.

Lemma bounds_checked_queries_witness :
  queries_fail 4 (Some example_tree) 7%N (errInvalidNodeID 7%N)
  ∧ queries_fail 4 None 7%N errTreeIsNil.
Proof.
  assert (node_count example_tree <= 7)%N as H by (vm_compute; discriminate).
  destruct (bounds_checked_queries 4 example_tree 7%N H) as (H1 & _ & H2 & _).
  exact (conj H1 H2).
Defined.

(** C4, as first stated, fails on a non-nil tree without nodes: [Get]
    reports an invalid NodeID, not an empty or nil tree. *)
Lemma zero_node_tree_reports_InvalidNodeID :
  Tree.Get (Some empty_tree) 0%N = Err (errInvalidNodeID 0%N)
  ∧ Tree.ParentID (Some empty_tree) 0%N = Err (errInvalidNodeID 0%N)
  ∧ ¬ EmptyOrNilTree (errInvalidNodeID 0%N).
Proof. split_and!; [done|done|]. apply errInvalidNodeID_not_EmptyOrNilTree. Qed.

(** C8. On a non-nil tree with at least one node, [ParentID 0] and
    [Parent 0] return the error "Root element does not have a parent". *)
Theorem root_has_no_parent (t : Tree) :
  Nodes t ≠ [] →
  Tree.ParentID (Some t) 0%N = Err errNoParent
  ∧ Tree.Parent (Some t) 0%N = Err errNoParent
  ∧ NoParent errNoParent.
Proof.
  intros Hne. unfold Tree.ParentID, Tree.Parent.
  rewrite out_of_range_lt; [done|].
  destruct (Nodes t); [done|]. simpl. lia.
Qed.

Lemma root_has_no_parent_witness :
  Tree.ParentID (Some example_tree) 0%N = Err errNoParent
  ∧ Tree.Parent (Some example_tree) 0%N = Err errNoParent
  ∧ NoParent errNoParent.
Proof. apply root_has_no_parent. discriminate. Defined.

(** ** The parent table of [AncestorIDs] and [Ancestors] *)

Lemma child_of_lookup (t : Tree) (i : nat) (tn : TreeNode) (c : NodeID) :
  Nodes t !! i = Some tn → c ∈ Children tn → child_of t (N.of_nat i) c.
Proof. intros Hi Hc. exists tn. by rewrite Nat2N.id. Qed.

Lemma children_in_bounds_Forall (t : Tree) :
  children_in_bounds t →
  Forall (λ tn, Forall (λ c, N.to_nat c < length (Nodes t)) (Children tn)) (Nodes t).
Proof.
  intros Hb. apply Forall_lookup. intros i tn Hi.
  apply Forall_forall. intros c Hc.
  specialize (Hb _ _ (child_of_lookup t i tn c Hi Hc)).
  unfold node_count in Hb. lia.
Qed.

Lemma record_parent_spec (i : nat) (cs : list NodeID) (all : list NodeID) :
  Forall (λ c, N.to_nat c < length all) cs →
  ∃ all', Tree.record_parent i cs all = Ok all'
    ∧ length all' = length all
    ∧ (∀ c, c ∈ cs → all' !! N.to_nat c = Some (NodeID_of_int i))
    ∧ (∀ k, (∀ c, c ∈ cs → N.to_nat c ≠ k) → all' !! k = all !! k).
Proof.
  revert all. induction cs as [|c cs IH]; intros all Hb.
  - exists all. split_and!; [done|done| |done]. intros c Hc. by apply elem_of_nil in Hc.
  - apply Forall_cons in Hb as [Hc Hcs]. simpl.
    rewrite bool_decide_eq_true_2 by done.
    destruct (IH (<[N.to_nat c:=NodeID_of_int i]> all)) as (all' & Hrun & Hlen & Hin & Hout).
    { by rewrite length_insert. }
    exists all'. rewrite length_insert in Hlen. split_and!; [done|done| |].
    + intros c' Hc'. destruct (decide (c' ∈ cs)) as [Hmem|Hmem]; [by apply Hin|].
      apply elem_of_cons in Hc' as [->|Hc']; [|done].
      rewrite Hout.
      * by apply list_lookup_insert_eq.
      * intros c'' Hc'' Heq. apply N2Nat.inj in Heq. by subst.
    + intros k Hk. rewrite Hout.
      * apply list_lookup_insert_ne. apply Hk. by left.
      * intros c' Hc'. apply Hk. by right.
Qed.

(** After the table-building loops every listed child holds the index of
    the node that lists it, if no two nodes list the same child; entries no
    node lists are left as they were. *)
Lemma record_parents_spec (n : nat) (nodes : list TreeNode) (i : nat) (all : list NodeID) :
  length all = n →
  Forall (λ tn, Forall (λ c, N.to_nat c < n) (Children tn)) nodes →
  ∃ all', Tree.record_parents nodes i all = Ok all'
    ∧ length all' = n
    ∧ (∀ k, (∀ j tn c, nodes !! j = Some tn → c ∈ Children tn → N.to_nat c ≠ k) →
            all' !! k = all !! k)
    ∧ ((∀ j j' tn tn' c, nodes !! j = Some tn → nodes !! j' = Some tn' →
          c ∈ Children tn → c ∈ Children tn' → j = j') →
       ∀ j tn c, nodes !! j = Some tn → c ∈ Children tn →
          all' !! N.to_nat c = Some (NodeID_of_int (i + j))).
Proof.
  revert i all. induction nodes as [|tn nodes IH]; intros i all Hlen Hb.
  - exists all. split_and!; [done|done|done|]. intros _ j tn c Hj. by rewrite lookup_nil in Hj.
  - apply Forall_cons in Hb as [Htn Hrest]. simpl.
    destruct (record_parent_spec i (Children tn) all) as (all1 & Hrun1 & Hlen1 & Hin1 & Hout1).
    { by rewrite Hlen. }
    rewrite Hrun1. simpl.
    destruct (IH (S i) all1) as (all' & Hrun & Hlen' & Hout & Hin); [congruence|done|].
    exists all'. split_and!; [done|done| |].
    + intros k Hk. rewrite Hout.
      * apply Hout1. intros c Hc. by apply (Hk 0 tn c).
      * intros j tn' c Hj Hc. by apply (Hk (S j) tn' c).
    + intros Huniq j tn' c Hj Hc. destruct j as [|j].
      * simpl in Hj. injection Hj as <-. rewrite Nat.add_0_r.
        rewrite Hout; [by apply Hin1|].
        intros j' tn'' c' Hj' Hc' Heq. apply N2Nat.inj in Heq. subst c'.
        by specialize (Huniq 0 (S j') tn tn'' c eq_refl Hj' Hc Hc').
      * replace (i + S j) with (S i + j) by lia.
        apply (Hin (λ j1 j2 tn1 tn2 c' H1 H2 Hc1 Hc2,
                 eq_add_S _ _ (Huniq (S j1) (S j2) tn1 tn2 c' H1 H2 Hc1 Hc2)) j tn' c Hj Hc).
Qed.

Lemma parent_table_in_bounds (t : Tree) :
  children_in_bounds t →
  ∃ all, Tree.parent_table (Nodes t) = Ok all ∧ length all = length (Nodes t).
Proof.
  intros Hb. unfold Tree.parent_table.
  destruct (record_parents_spec (length (Nodes t)) (Nodes t) 0
              (replicate (length (Nodes t)) 0%N)) as (all & Hrun & Hlen & _).
  - apply length_replicate.
  - by apply children_in_bounds_Forall.
  - by exists all.
Qed.

(** C10 (amended). On a non-nil tree with at least one node whose child IDs
    are all below the node count, [AncestorIDs 0] and [Ancestors 0] return
    an empty list and a nil error, whatever the loop budget: a root query
    through the ancestor operations does not fail with the no-parent
    error. *)
Theorem root_has_no_ancestors (fuel : nat) (t : Tree) :
  Nodes t ≠ [] →
  children_in_bounds t →
  Tree.AncestorIDs fuel (Some t) 0%N = Ok []
  ∧ Tree.Ancestors fuel (Some t) 0%N = Ok [].
Proof.
  intros Hne Hb. unfold Tree.AncestorIDs, Tree.Ancestors.
  rewrite out_of_range_lt by (destruct (Nodes t); [done|simpl; lia]).
  destruct (parent_table_in_bounds t Hb) as (all & -> & _).
  by destruct fuel.
Qed.

(** C10, as first stated, fails on a tree whose root names a child that
    does not exist: building the parent table indexes out of range. *)
Lemma dangling_child_panics :
  Tree.AncestorIDs 1 (Some dangling_tree) 0%N = Panic index_out_of_range
  ∧ Tree.Ancestors 1 (Some dangling_tree) 0%N = Panic index_out_of_range.
Proof. by split. Qed.

(** ** Parent edges, computed *)

Lemma child_of_edges (t : Tree) (p c : NodeID) :
  child_of t p c ↔ (p, c) ∈ edges t.
Proof.
  unfold child_of, edges. rewrite list_elem_of_join. split.
  - intros (tn & Hp & Hc).
    exists ((λ c, (N.of_nat (N.to_nat p), c)) <$> Children tn). split.
    + rewrite N2Nat.id. apply list_elem_of_fmap. by exists c.
    + apply elem_of_lookup_imap. by exists (N.to_nat p), tn.
  - intros (l & Hl & Himap).
    apply elem_of_lookup_imap in Himap as (i & tn & -> & Hi).
    apply list_elem_of_fmap in Hl as (c' & [= -> ->] & Hc).
    exists tn. by rewrite Nat2N.id.
Qed.

(** Case analysis on an edge of a tree given in full. *)
Ltac edge_cases H :=
  apply child_of_edges in H; vm_compute in H;
  repeat (apply elem_of_cons in H as [H|H]; [simplify_eq|]);
  try (by apply elem_of_nil in H).

Ltac edge_found := apply child_of_edges; vm_compute; repeat constructor.

Lemma example_tree_valid : valid_tree example_tree.
Proof.
  split.
  - intros p c H. edge_cases H; by vm_compute.
  - discriminate.
  - intros p c H. edge_cases H; by vm_compute.
  - split.
    + intros n Hn. change (node_count example_tree) with 4%N in Hn.
      assert (n = 1 ∨ n = 2 ∨ n = 3)%N as [->|[->| ->]] by lia.
      * exists 0%N. split; [edge_found|]. intros q H. edge_cases H; done.
      * exists 0%N. split; [edge_found|]. intros q H. edge_cases H; done.
      * exists 1%N. split; [edge_found|]. intros q H. edge_cases H; done.
    + intros p H. edge_cases H; done.
  - intros tn Htn. unfold example_tree in Htn. simpl in Htn.
    repeat (apply elem_of_cons in Htn as [->|Htn];
            [simpl; apply (bool_decide_unpack _); by vm_compute|]).
    by apply elem_of_nil in Htn.
  - intros n Hn. change (node_count example_tree) with 4%N in Hn.
    assert (child_of example_tree 0 1)%N as H01 by edge_found.
    assert (child_of example_tree 0 2)%N as H02 by edge_found.
    assert (child_of example_tree 1 3)%N as H13 by edge_found.
    assert (n = 0 ∨ n = 1 ∨ n = 2 ∨ n = 3)%N as [->|[->|[->| ->]]] by lia.
    + constructor.
    + eapply descendant_step; [constructor|done].
    + eapply descendant_step; [constructor|done].
    + eapply descendant_step; [|exact H13]. eapply descendant_step; [constructor|done].
Qed.

(** The scenario of the specification, run. *)
Example example_tree_queries :
  Tree.AncestorIDs 2 (Some example_tree) 3%N = Ok [1; 0]%N
  ∧ Tree.LeafDescendantIDs 4 (Some example_tree) 0%N = Ok [2; 3]%N
  ∧ Tree.ParentID (Some example_tree) 1%N = Ok 0%N
  ∧ Tree.ImmediateDescendantIDs (Some example_tree) 0%N = Ok [1; 2]%N
  ∧ Tree.LeafDescendants 4 (Some example_tree) 1%N = Ok [Some (Processing_element Core 0)].
Proof. by split_and!. Qed.

Lemma root_has_no_ancestors_witness :
  Tree.AncestorIDs 0 (Some example_tree) 0%N = Ok []
  ∧ Tree.Ancestors 0 (Some example_tree) 0%N = Ok [].
Proof.
  apply root_has_no_ancestors; [discriminate|].
  apply (valid_in_bounds _ example_tree_valid).
Defined.

(** ** The parent scan *)

Lemma existsb_eqb_elem_of (id : NodeID) (cs : list NodeID) :
  existsb (N.eqb id) cs = true ↔ id ∈ cs.
Proof.
  rewrite existsb_exists. split.
  - intros (x & Hx & Heq). apply N.eqb_eq in Heq. subst x. by apply list_elem_of_In.
  - intros H. exists id. split; [by apply list_elem_of_In|apply N.eqb_refl].
Qed.

Lemma find_parent_Some (id : NodeID) (nodes : list TreeNode) (i j : nat) (tn : TreeNode) :
  Tree.find_parent id nodes i = Some (j, tn) →
  ∃ k, j = i + k ∧ nodes !! k = Some tn ∧ id ∈ Children tn.
Proof.
  revert i. induction nodes as [|tn' nodes IH]; intros i; simpl; [done|].
  destruct (existsb (N.eqb id) (Children tn')) eqn:Hex.
  - intros [= <- <-]. exists 0. split_and!; [lia|done|]. by apply existsb_eqb_elem_of.
  - intros H. apply IH in H as (k & -> & Hk & Hin). exists (S k). split_and!; [lia|done|done].
Qed.

Lemma find_parent_None (id : NodeID) (nodes : list TreeNode) (i k : nat) (tn : TreeNode) :
  Tree.find_parent id nodes i = None → nodes !! k = Some tn → id ∉ Children tn.
Proof.
  revert i k. induction nodes as [|tn' nodes IH]; intros i k; simpl; [done|].
  destruct (existsb (N.eqb id) (Children tn')) eqn:Hex; [done|].
  intros Hnone Hk. destruct k as [|k]; simpl in Hk.
  - injection Hk as <-. intros Hin. apply existsb_eqb_elem_of in Hin. congruence.
  - by eapply IH.
Qed.

(** A tree of [uint32] child IDs in which every node but the first has a
    parent has at most [2^32] nodes. *)
Lemma unique_parent_node_count (t : Tree) :
  NodeIDs_uint32 t → unique_parent t → (node_count t <= 2 ^ 32)%N.
Proof.
  intros Hty [Hup _].
  destruct (decide (node_count t <= 2 ^ 32)%N) as [|Hgt]; [done|].
  destruct (Hup (2 ^ 32)%N) as (p & Hp & _); [lia|].
  apply Hty in Hp. lia.
Qed.

Lemma NodeID_of_int_small (i : nat) :
  (N.of_nat i < 2 ^ 32)%N → NodeID_of_int i = N.of_nat i.
Proof. intros H. unfold NodeID_of_int. by apply N.mod_small. Qed.

(** C9. In a tree that satisfies the unique-parent invariant, for every
    [id] with [0 < id < node count], [ParentID] and [Parent] do not reach
    their panic: they return the one node that lists [id], and its
    element. *)
Theorem parent_of_non_root (t : Tree) (id : NodeID) :
  NodeIDs_uint32 t →
  unique_parent t →
  (0 < id < node_count t)%N →
  ∃ p tn, Tree.ParentID (Some t) id = Ok p
    ∧ Tree.Parent (Some t) id = Ok (Data tn)
    ∧ Nodes t !! N.to_nat p = Some tn
    ∧ id ∈ Children tn
    ∧ ∀ q, child_of t q id → q = p.
Proof.
  intros Hty Hup Hid.
  pose proof (unique_parent_node_count t Hty Hup) as Hcount.
  destruct Hup as [Hup _]. destruct (Hup id Hid) as (p & (tn0 & Hp0 & Hin0) & Huniq).
  unfold Tree.ParentID, Tree.Parent.
  rewrite out_of_range_lt by (unfold node_count in Hid; lia).
  destruct (N.eqb_spec id 0) as [|_]; [lia|].
  destruct (Tree.find_parent id (Nodes t) 0) as [[j tn]|] eqn:Hfind.
  - apply find_parent_Some in Hfind as (k & -> & Hk & Hin). simpl.
    pose proof (lookup_lt_Some _ _ _ Hk) as Hlt.
    assert (N.of_nat k = p) as Hkp by (apply Huniq; by eapply child_of_lookup).
    exists p, tn. rewrite NodeID_of_int_small by (unfold node_count in Hcount; lia).
    rewrite Hkp. split_and!; [done|done| |done|done].
    by rewrite <- Hkp, Nat2N.id.
  - exfalso. by eapply find_parent_None.
Qed.

Lemma parent_of_non_root_witness :
  ∃ p tn, Tree.ParentID (Some example_tree) 3%N = Ok p
    ∧ Tree.Parent (Some example_tree) 3%N = Ok (Data tn)
    ∧ Nodes example_tree !! N.to_nat p = Some tn
    ∧ 3%N ∈ Children tn
    ∧ ∀ q, child_of example_tree q 3%N → q = p.
Proof.
  apply parent_of_non_root.
  - apply (valid_uint32 _ example_tree_valid).
  - apply (valid_unique_parent _ example_tree_valid).
  - by vm_compute.
Defined.

(** ** Depth and the chain of ancestors *)

Lemma child_is_not_root (t : Tree) (p c : NodeID) :
  unique_parent t → child_of t p c → c ≠ 0%N.
Proof. intros [_ Hroot] Hc ->. by apply (Hroot p). Qed.

Lemma unique_parent_eq (t : Tree) (p q c : NodeID) :
  children_in_bounds t → unique_parent t →
  child_of t p c → child_of t q c → p = q.
Proof.
  intros Hb Hup Hp Hq.
  pose proof (child_is_not_root t p c Hup Hp) as Hc0.
  destruct Hup as [Hup _].
  destruct (Hup c) as (r & _ & Hr); [specialize (Hb _ _ Hp); lia|].
  by rewrite (Hr p Hp), (Hr q Hq).
Qed.

Lemma depth_functional (t : Tree) (n : NodeID) (d d' : nat) :
  children_in_bounds t → unique_parent t →
  depth t n d → depth t n d' → d = d'.
Proof.
  intros Hb Hup Hd. revert d'.
  induction Hd as [|p c d Hd IH Hc]; intros d' Hd'.
  - inversion Hd' as [|p c d'' _ Hc]; [done|].
    by destruct (child_is_not_root t p 0%N Hup Hc).
  - inversion Hd' as [Heq|p' c' d'' Hd'' Hc']; subst.
    + by destruct (child_is_not_root t p 0%N Hup Hc).
    + f_equal. apply IH. by rewrite (unique_parent_eq t p p' c Hb Hup Hc Hc').
Qed.

Lemma descendant_of_root_depth (t : Tree) (n : NodeID) :
  descendant t 0%N n → ∃ d, depth t n d.
Proof.
  induction 1 as [|p c _ [d Hd] Hc].
  - exists 0. constructor.
  - exists (S d). by econstructor.
Qed.






(** The unique-parent invariant alone does not make the walk end: on the
    nodes of a cycle it runs out of every budget. *)
Lemma cyclic_tree_unique_parent :
  NodeIDs_uint32 cyclic_tree ∧ children_in_bounds cyclic_tree ∧ unique_parent cyclic_tree.
Proof.
  split_and!.
  - intros p c H. edge_cases H; by vm_compute.
  - intros p c H. edge_cases H; by vm_compute.
  - split.
    + intros n Hn. change (node_count cyclic_tree) with 3%N in Hn.
      assert (n = 1 ∨ n = 2)%N as [->| ->] by lia.
      * exists 2%N. split; [edge_found|]. intros q H. edge_cases H; done.
      * exists 1%N. split; [edge_found|]. intros q H. edge_cases H; done.
    + intros p H. edge_cases H; done.
Qed.

Lemma cyclic_tree_walk_never_ends (fuel : nat) :
  Tree.AncestorIDs fuel (Some cyclic_tree) 1%N = OutOfFuel.
Proof.
  unfold Tree.AncestorIDs. simpl.
  assert (∀ acc, Tree.ancestorIDs_loop fuel [0; 2; 1]%N 1%N acc = OutOfFuel
               ∧ Tree.ancestorIDs_loop fuel [0; 2; 1]%N 2%N acc = OutOfFuel) as H.
  { induction fuel as [|fuel IH]; intros acc; [done|]. simpl. split; apply IH. }
  apply H.
Qed.

(** ** The leaf traversal *)

Lemma descendant_in_bounds (t : Tree) (a x : NodeID) :
  children_in_bounds t → (a < node_count t)%N → descendant t a x → (x < node_count t)%N.
Proof. intros Hb Ha. induction 1 as [|p c _ _ Hc]; [done|]. by apply (Hb p c). Qed.

Lemma descendant_depth (t : Tree) (a x : NodeID) (d : nat) :
  depth t a d → descendant t a x → ∃ k, depth t x (d + k).
Proof.
  intros Ha. induction 1 as [|p c _ [k Hk] Hc].
  - exists 0. by rewrite Nat.add_0_r.
  - exists (S k). rewrite Nat.add_succ_r. by econstructor.
Qed.

(** A valid tree has no cycle: no node lists one of its ancestors. *)
Lemma descendant_acyclic (t : Tree) (a x : NodeID) :
  valid_tree t → (a < node_count t)%N → descendant t a x → ¬ child_of t x a.
Proof.
  intros Hv Ha Hx Hc.
  destruct (descendant_of_root_depth t a (valid_connected t Hv a Ha)) as [d Hd].
  destruct (descendant_depth t a x d Hd Hx) as [k Hk].
  pose proof (depth_functional t a _ _ (valid_in_bounds t Hv) (valid_unique_parent t Hv)
                Hd (depth_child t x a _ Hk Hc)).
  lia.
Qed.

(** Distinct IDs below [k] are at most [k]. *)
Lemma NoDup_bounded_length (l : list N) (k : nat) :
  NoDup l → (∀ y, y ∈ l → (y < N.of_nat k)%N) → length l ≤ k.
Proof.
  intros Hnd Hlt.
  rewrite <- (length_fmap N.to_nat l), <- (length_seq k 0).
  apply submseteq_length, NoDup_submseteq.
  - apply NoDup_fmap_2_strong; [|done]. intros x y _ _. apply N2Nat.inj.
  - intros i Hi. apply list_elem_of_fmap in Hi as (y & -> & Hy).
    apply elem_of_seq. specialize (Hlt y Hy). lia.
Qed.

Lemma push_children_spec (nodes : list TreeNode) (cs : list NodeID)
    (stack : list (NodeID * TreeNode)) :
  Forall (λ c, N.to_nat c < length nodes) cs →
  ∃ stack', Tree.push_children nodes cs stack = Ok stack'
    ∧ stack'.*1 = reverse cs ++ stack.*1
    ∧ ∀ y tn, (y, tn) ∈ stack' →
        (y, tn) ∈ stack ∨ (y ∈ cs ∧ nodes !! N.to_nat y = Some tn).
Proof.
  revert stack. induction cs as [|c cs IH]; intros stack Hb.
  - exists stack. split_and!; [done|done|]. intros y tn Hy. by left.
  - apply Forall_cons in Hb as [Hc Hcs]. simpl.
    destruct (lookup_lt_is_Some_2 nodes (N.to_nat c) Hc) as [tn Htn].
    unfold index. rewrite Htn. simpl.
    destruct (IH ((c, tn) :: stack) Hcs) as (stack' & Hrun & Hfst & Hin).
    exists stack'. split_and!; [done| |].
    + rewrite Hfst, reverse_cons. simpl. by rewrite <- app_assoc.
    + intros y tn' Hy. destruct (Hin y tn' Hy) as [Hold|[Hnew Hlook]].
      * apply elem_of_cons in Hold as [[= -> ->]|Hold]; [|by left].
        right. split; [by left|done].
      * right. split; [by right|done].
Qed.

Section LeafTraversal.
Variable t : Tree.
Variable n : NodeID.
Hypothesis Hv : valid_tree t.
Hypothesis Hn : (n < node_count t)%N.

Lemma traversal_inv_init (tn : TreeNode) :
  Nodes t !! N.to_nat n = Some tn → traversal_inv t n [(n, tn)] [] [].
Proof.
  intros Htn. split; simpl.
  - intros y tn' Hy. apply list_elem_of_singleton in Hy. by simplify_eq.
  - apply NoDup_singleton.
  - intros y Hy. apply list_elem_of_singleton in Hy. subst. constructor.
  - intros y c Hy. by apply elem_of_nil in Hy.
  - intros y Hy. apply list_elem_of_singleton in Hy. by subst.
  - by left.
  - constructor.
  - intros y. split; [intros Hy|intros [Hy _]]; by apply elem_of_nil in Hy.
Qed.

(** Popping a leaf. *)
Lemma traversal_inv_leaf x tn rest popped leafIDs :
  traversal_inv t n ((x, tn) :: rest) popped leafIDs →
  Children tn = [] →
  traversal_inv t n rest (x :: popped) (leafIDs ++ [x]).
Proof.
  intros [Hnodes Hnd Hdesc Hclosed Hparent Hstart Hlnd Hl] Hleaf. simpl in *.
  assert (∀ y, y ∈ rest.*1 ++ x :: popped ↔ y ∈ x :: rest.*1 ++ popped) as Hmid.
  { intros y. by rewrite <- Permutation_middle. }
  assert (Nodes t !! N.to_nat x = Some tn) as Hx by (apply Hnodes; by left).
  apply NoDup_cons in Hnd as Hnd'. destruct Hnd' as [Hfresh _].
  split.
  - intros y tn' Hy. apply Hnodes. by right.
  - by rewrite <- Permutation_middle.
  - intros y Hy. apply Hdesc. by apply Hmid.
  - intros y c Hy Hc. apply Hmid. apply elem_of_cons in Hy as [->|Hy].
    + destruct Hc as (tn' & Htn' & Hc). simplify_eq. rewrite Hleaf in Hc.
      by apply elem_of_nil in Hc.
    + by eapply Hclosed.
  - intros y Hy Hyn. apply Hmid in Hy. destruct (Hparent y Hy Hyn) as (p & Hp & Hc).
    exists p. split; [by right|done].
  - by apply Hmid.
  - apply NoDup_app. split_and!; [done| |apply NoDup_singleton].
    intros y Hy Hyx. apply list_elem_of_singleton in Hyx. subst y.
    apply Hl in Hy as [Hy _]. apply Hfresh, elem_of_app. by right.
  - intros y. rewrite elem_of_app, list_elem_of_singleton, elem_of_cons, Hl. split.
    + intros [[Hy Hleaf']| ->]; [by split; [right|]|]. split; [by left|by exists tn].
    + intros [[->|Hy] Hleaf']; [by right|by left].
Qed.

(** The children of a node on the stack have not been seen before. *)
Lemma traversal_children_fresh x tn rest popped leafIDs c :
  traversal_inv t n ((x, tn) :: rest) popped leafIDs →
  c ∈ Children tn → c ∉ x :: rest.*1 ++ popped.
Proof.
  intros [Hnodes Hnd Hdesc Hclosed Hparent Hstart Hlnd Hl] Hc Hseen. simpl in *.
  assert (Nodes t !! N.to_nat x = Some tn) as Hx by (apply Hnodes; by left).
  assert (child_of t x c) as Hxc by by exists tn.
  destruct (decide (c = n)) as [->|Hcn].
  - apply (descendant_acyclic t n x Hv Hn); [|done]. apply Hdesc. by left.
  - destruct (Hparent c Hseen Hcn) as (p & Hp & Hpc).
    rewrite (unique_parent_eq t p x c (valid_in_bounds t Hv) (valid_unique_parent t Hv) Hpc Hxc)
      in Hp.
    apply NoDup_cons in Hnd as [Hfresh _]. apply Hfresh, elem_of_app. by right.
Qed.

(** Popping an inner node and pushing its children. *)
Lemma traversal_inv_push x tn rest stack' popped leafIDs :
  traversal_inv t n ((x, tn) :: rest) popped leafIDs →
  Children tn ≠ [] →
  stack'.*1 = reverse (Children tn) ++ rest.*1 →
  (∀ y tn', (y, tn') ∈ stack' →
     (y, tn') ∈ rest ∨ (y ∈ Children tn ∧ Nodes t !! N.to_nat y = Some tn')) →
  traversal_inv t n stack' (x :: popped) leafIDs.
Proof.
  intros Hinv Hinner Hfst Hstack'.
  pose proof (traversal_children_fresh x tn rest popped leafIDs) as Hfresh.
  specialize (λ c, Hfresh c Hinv).
  destruct Hinv as [Hnodes Hnd Hdesc Hclosed Hparent Hstart Hlnd Hl]. simpl in *.
  assert (Nodes t !! N.to_nat x = Some tn) as Hx by (apply Hnodes; by left).
  assert (∀ y, y ∈ stack'.*1 ++ x :: popped ↔
               y ∈ Children tn ∨ y ∈ x :: rest.*1 ++ popped) as Hmem.
  { intros y. rewrite Hfst, <- app_assoc, elem_of_app, elem_of_reverse.
    by rewrite <- Permutation_middle. }
  split.
  - intros y tn' Hy. destruct (Hstack' y tn' Hy) as [Hold|[_ Hnew]]; [|done].
    apply Hnodes. by right.
  - rewrite Hfst, <- app_assoc. apply NoDup_app. split_and!.
    + rewrite reverse_Permutation. apply (valid_listed_once t Hv).
      apply list_elem_of_lookup. eauto.
    + intros y Hy. rewrite <- Permutation_middle. apply Hfresh. by apply elem_of_reverse.
    + by rewrite <- Permutation_middle.
  - intros y Hy. apply Hmem in Hy as [Hy|Hy]; [|by apply Hdesc].
    apply (descendant_step t n x y); [apply Hdesc; by left|by exists tn].
  - intros y c Hy Hc. apply Hmem. apply elem_of_cons in Hy as [->|Hy].
    + left. destruct Hc as (tn' & Htn' & Hc). by simplify_eq.
    + right. by eapply Hclosed.
  - intros y Hy Hyn. apply Hmem in Hy as [Hy|Hy].
    + exists x. split; [by left|by exists tn].
    + destruct (Hparent y Hy Hyn) as (p & Hp & Hc). exists p. split; [by right|done].
  - apply Hmem. by right.
  - done.
  - intros y. rewrite Hl, elem_of_cons. split; [intros [Hy Hleaf]; by split; [right|]|].
    intros [[->|Hy] Hleaf]; [|done].
    destruct Hleaf as (tn' & Htn' & Hleaf). by simplify_eq.
Qed.

(** With the stack empty, the popped nodes are the subtree of [n]. *)
Lemma traversal_inv_final popped leafIDs :
  traversal_inv t n [] popped leafIDs →
  ∀ y, y ∈ leafIDs ↔ descendant t n y ∧ is_leaf t y.
Proof.
  intros [_ _ Hdesc Hclosed _ Hstart _ Hl] y. simpl in *.
  rewrite Hl. split; intros [Hy Hleaf]; (split; [|done]); [by apply Hdesc|].
  clear Hleaf. induction Hy as [|p c _ IH Hc]; [done|]. by eapply Hclosed.
Qed.

Lemma traversal_popped_length stack popped leafIDs :
  traversal_inv t n stack popped leafIDs →
  length stack + length popped ≤ length (Nodes t).
Proof.
  intros Hinv. rewrite <- (length_fmap fst stack), <- length_app.
  apply NoDup_bounded_length; [apply Hinv|].
  intros y Hy. apply (descendant_in_bounds t n y (valid_in_bounds t Hv) Hn).
  by apply (inv_descendant _ _ _ _ _ Hinv).
Qed.

(** The loop ends within one iteration per node not popped yet, and
    returns the leaves of the subtree of [n], each once. *)
Lemma leafIDs_loop_spec (k : nat) stack popped leafIDs :
  traversal_inv t n stack popped leafIDs →
  length (Nodes t) - length popped ≤ k →
  ∃ l, (∀ fuel, k ≤ fuel → Tree.leafIDs_loop fuel (Nodes t) stack leafIDs = Ok l)
    ∧ NoDup l
    ∧ ∀ y, y ∈ l ↔ descendant t n y ∧ is_leaf t y.
Proof.
  revert stack popped leafIDs.
  induction k as [|k IH]; intros stack popped leafIDs Hinv Hk;
    pose proof (traversal_popped_length _ _ _ Hinv) as Hlen;
    (destruct stack as [|[x tn] rest];
     [exists leafIDs; split_and!;
      [by intros [|fuel] _|apply Hinv|by eapply traversal_inv_final]|]);
    simpl in Hlen; [lia|].
  assert (Nodes t !! N.to_nat x = Some tn) as Hx by (apply Hinv; by left).
  destruct (Children tn) as [|c cs] eqn:Hcs.
  - destruct (IH rest (x :: popped) (leafIDs ++ [x])) as (l & Hrun & Hl);
      [by apply (traversal_inv_leaf x tn)|simpl; lia|].
    exists l. split; [|done]. intros [|fuel] Hfuel; [lia|]. simpl. rewrite Hcs.
    apply Hrun. lia.
  - destruct (push_children_spec (Nodes t) (Children tn) rest)
      as (stack' & Hpush & Hfst & Hstack').
    { apply Forall_forall. intros c' Hc'.
      pose proof (valid_in_bounds t Hv x c' (ex_intro _ tn (conj Hx Hc'))) as Hb.
      unfold node_count in Hb. lia. }
    destruct (IH stack' (x :: popped) leafIDs) as (l & Hrun & Hl);
      [apply (traversal_inv_push x tn rest); [done|by rewrite Hcs|done|done]|simpl; lia|].
    exists l. split; [|done]. intros [|fuel] Hfuel; [lia|].
    rewrite Hcs in Hpush. simpl. rewrite Hcs, Hpush. simpl. apply Hrun. lia.
Qed.
End LeafTraversal.

(** ** Parsing the enumerations *)

Lemma lower_upper_byte (a : ascii) :
  (N_of_ascii a <? 128)%N = true → is_upper a = false →
  lower_byte a = a
  ∧ lower_byte (upper_byte a) = a
  ∧ (N_of_ascii (upper_byte a) <? 128)%N = true.
Proof.
  destruct a as [[] [] [] [] [] [] [] []]; vm_compute; intros; by split_and!.
Qed.

(** Lowering any casing of a lower-case ASCII text gives the text back. *)
Lemma casing_of_lower (t s : string) :
  lowercase_ascii t = true → casing_of t s = true →
  isASCII s = true ∧ map_bytes lower_byte s = t.
Proof.
  revert s. induction t as [|a t IH]; intros [|b s]; simpl; try done.
  intros [[Ha Hup%negb_true_iff]%andb_prop Ht]%andb_prop [Hb Hs]%andb_prop.
  destruct (IH s Ht Hs) as [-> ->].
  destruct (lower_upper_byte a Ha Hup) as (Hl & Hlu & Hu).
  apply orb_prop in Hb as [->%bool_decide_eq_true| ->%bool_decide_eq_true].
  - by rewrite Ha, Hl.
  - by rewrite Hu, Hlu.
Qed.

Section CodecProperties.
Variable unicode_ToLower : string → string.
Variable json_Unmarshal : string → jvalue + error.
Variable json_Marshal : gmap string raw_entry → string * option error.
Variable float64_unrepresentable : int_type → float64 → Z.



(** ** Decoding an element *)

(** Input that does not pass the prefix test never decodes as the
    root. *)
Lemma UnmarshalJSON_not_root (e e' : Element) (data : string) :
  HasPrefix (ToLower unicode_ToLower data) (quoted "machine") = false →
  UnmarshalJSON unicode_ToLower json_Unmarshal float64_unrepresentable e data = (e', None) →
  IsRoot e' = false.
Proof.
  intros Hprefix Hrun. unfold UnmarshalJSON in Hrun. rewrite Hprefix in Hrun.
  repeat case_match; by simplify_eq.
Qed.

Lemma HasPrefix_app (tok rest : string) :
  HasPrefix (tok ++ rest)%string tok = true.
Proof.
  induction tok as [|a tok IH]; [done|]. simpl.
  by rewrite bool_decide_eq_true_2, IH.
Qed.

Lemma isASCII_app (s1 s2 : string) :
  isASCII (s1 ++ s2)%string = isASCII s1 && isASCII s2.
Proof. induction s1 as [|a s1 IH]; [done|]. simpl. by rewrite IH, andb_assoc. Qed.

Lemma map_bytes_app (f : ascii → ascii) (s1 s2 : string) :
  map_bytes f (s1 ++ s2)%string = (map_bytes f s1 ++ map_bytes f s2)%string.
Proof. induction s1 as [|a s1 IH]; [done|]. simpl. by rewrite IH. Qed.

(** C2 (amended). The root is recognised by a prefix match of the
    lowered input against the nine bytes of the token "machine" with
    both its quotes: input that passes decodes as the root, whatever the
    receiver held, and input that does not pass never decodes as the
    root.  For ASCII input the test passes for any casing of the quoted
    token followed by any bytes. *)
Theorem root_prefix_match (e : Element) (data : string) :
  (HasPrefix (ToLower unicode_ToLower data) (quoted "machine") = true →
   UnmarshalJSON unicode_ToLower json_Unmarshal float64_unrepresentable e data
     = (Root_element, None))
  ∧ (HasPrefix (ToLower unicode_ToLower data) (quoted "machine") = false →
     ¬ ∃ e', UnmarshalJSON unicode_ToLower json_Unmarshal float64_unrepresentable e data
               = (e', None) ∧ IsRoot e' = true)
  ∧ (∀ tok rest, data = (tok ++ rest)%string →
       casing_of (quoted "machine") tok = true → isASCII rest = true →
       HasPrefix (ToLower unicode_ToLower data) (quoted "machine") = true).
Proof.
  split_and!.
  - intros Hprefix. unfold UnmarshalJSON. by rewrite Hprefix.
  - intros Hprefix (e' & Hrun & Hroot).
    by rewrite (UnmarshalJSON_not_root e e' data Hprefix Hrun) in Hroot.
  - intros tok rest -> Htok Hrest.
    destruct (casing_of_lower (quoted "machine") tok eq_refl Htok) as [Hascii Hlow].
    unfold ToLower. rewrite isASCII_app, Hascii, Hrest. simpl andb. cbv iota.
    rewrite map_bytes_app, Hlow. apply HasPrefix_app.
Qed.


(** ** The encoding side *)

(** The root is written as the bare token, which reads back as the root;
    an element with both pointers set is not written at all. *)
Lemma MarshalJSON_root (e e0 : Element) :
  IsRoot e = true →
  MarshalJSON json_Marshal e = (quoted "machine", None)
  ∧ UnmarshalJSON unicode_ToLower json_Unmarshal float64_unrepresentable e0
      (quoted "machine") = (Root_element, None).
Proof. intros Hroot. unfold MarshalJSON. by rewrite Hroot. Qed.

Lemma MarshalJSON_invalid (p : Processing) (c : Cache) :
  MarshalJSON json_Marshal {| Element_Processing := Some p; Element_Cache := Some c |}
  = (""%string, Some "Invalid Element"%string).
Proof. done. Qed.

(** The wire form of a kind, its lower-cased name, and of a level, its
    name, parse back to the kind and to the level. *)
Lemma ParseProcessingKind_String (pk : ProcessingKind) :
  pk ≠ UnknownProcessingKind →
  ParseProcessingKind unicode_ToLower (ToLower unicode_ToLower (ProcessingKind_String pk))
  = (pk, None).
Proof. by destruct pk. Qed.

Lemma ParseCacheLevel_String (cl : CacheLevel) :
  cl ≠ UnknownCacheLevel → ParseCacheLevel (CacheLevel_String cl) = (cl, None).
Proof. by destruct cl. Qed.
End CodecProperties.

Lemma root_prefix_match_witness :
  UnmarshalJSON (λ s, s) (λ _, inr "not called"%string) (λ _ _, 0%Z)
    (Processing_element Core 7) (quoted "MACHINE") = (Root_element, None).
Proof.
  apply (root_prefix_match (λ s, s) (λ _, inr "not called"%string) (λ _ _, 0%Z)
           (Processing_element Core 7) (quoted "MACHINE")).
  by vm_compute.
Defined.

(** C2, as first stated, fails on the token "machine_extra": after [machine]
    comes [_], not the closing quote, so the prefix test fails, and under no
    decoder does the input decode as the root. *)
Lemma machine_extra_is_not_root :
  (∀ unicode_ToLower,
     HasPrefix (ToLower unicode_ToLower (quoted "machine_extra")) (quoted "machine") = false)
  ∧ ¬ ∃ unicode_ToLower json_Unmarshal float64_unrepresentable e e',
        UnmarshalJSON unicode_ToLower json_Unmarshal float64_unrepresentable e
          (quoted "machine_extra") = (e', None)
        ∧ IsRoot e' = true.
Proof.
  split; [done|]. intros (uni & ju & fu & e & e' & Hrun & Hroot).
  by rewrite (UnmarshalJSON_not_root uni ju fu e e' (quoted "machine_extra") eq_refl Hrun)
    in Hroot.
Qed.



(** * Further properties of the queries *)

(** ** Lookups *)

Lemma index_lookup (nodes : list TreeNode) (id : NodeID) (tn : TreeNode) :
  nodes !! N.to_nat id = Some tn → index nodes id = Ok tn ∧ data_of nodes id = Data tn.
Proof. intros H. unfold index, data_of. by rewrite H. Qed.

Lemma in_bounds_lookup (nodes : list TreeNode) (id : NodeID) :
  in_bounds nodes id = true ↔ ∃ tn, nodes !! N.to_nat id = Some tn.
Proof.
  unfold in_bounds. rewrite bool_decide_eq_true. split.
  - apply lookup_lt_is_Some_2.
  - intros [tn Htn]. by eapply lookup_lt_Some.
Qed.

Lemma index_out_of_bounds (nodes : list TreeNode) (id : NodeID) :
  in_bounds nodes id = false → index nodes id = Panic index_out_of_range.
Proof.
  unfold in_bounds, index. rewrite bool_decide_eq_false. intros H.
  by rewrite lookup_ge_None_2 by lia.
Qed.

(** X1. [Get] succeeds exactly on the IDs below [Size], with the element
    stored under the ID, and does not panic; [Root] succeeds exactly on a
    tree that has a node, and is then [Get 0]; [IsEmpty] says whether
    [Size] is 0. *)
Theorem lookups_in_range (t : option Tree) (id : NodeID) :
  ((∃ e, Tree.Get t id = Ok e) ↔ (Z.of_N id < Tree.Size t)%Z)
  ∧ (∀ tree e, t = Some tree → Tree.Get t id = Ok e → e = data_of (Nodes tree) id)
  ∧ (∀ p, Tree.Get t id ≠ Panic p)
  ∧ ((∃ e, Tree.Root t = Ok e) ↔ (0 < Tree.Size t)%Z)
  ∧ ((0 < Tree.Size t)%Z → Tree.Root t = Tree.Get t 0%N)
  ∧ (Tree.IsEmpty t = true ↔ Tree.Size t = 0%Z).
Proof.
  destruct t as [tree|]; simpl.
  2: { split_and!; try done; split; try (by intros [e He]); lia. }
  assert (((∃ e, Tree.Root (Some tree) = Ok e) ↔ (0 < Z.of_nat (length (Nodes tree)))%Z)
          ∧ ((0 < Z.of_nat (length (Nodes tree)))%Z →
             Tree.Root (Some tree) = Tree.Get (Some tree) 0%N)) as [Hroot Hget].
  { unfold Tree.Root, Tree.Get, out_of_range, index.
    destruct (Nodes tree) as [|tn nodes]; simpl.
    - split; [|lia]. split; [by intros [e He]|lia].
    - split; [|done]. split; [lia|by eexists]. }
  assert (bool_decide (0 = length (Nodes tree)) = true ↔ Z.of_nat (length (Nodes tree)) = 0%Z)
    as Hempty by (rewrite bool_decide_eq_true; lia).
  unfold out_of_range.
  destruct (Z.leb_spec (Z.of_nat (length (Nodes tree))) (Z.of_N id)) as [Hge|Hlt].
  - split_and!; try done. split; [by intros [e He]|lia].
  - destruct (lookup_lt_is_Some_2 (Nodes tree) (N.to_nat id)) as [tn Htn]; [lia|].
    destruct (index_lookup _ _ _ Htn) as [-> Hdata]. simpl. split_and!; try done.
    + split; [done|by eexists].
    + intros ? e [= <-] [= <-]. by rewrite Hdata.
Qed.

Lemma children_data_spec (nodes : list TreeNode) (ids : list NodeID)
    (children : list (option Element)) :
  Tree.children_data nodes ids children =
    if forallb (in_bounds nodes) ids then Ok (children ++ (data_of nodes <$> ids))
    else Panic index_out_of_range.
Proof.
  revert children. induction ids as [|c ids IH]; intros children; simpl.
  - by rewrite app_nil_r.
  - destruct (in_bounds nodes c) eqn:Hc; simpl.
    + apply in_bounds_lookup in Hc as [tn Htn].
      destruct (index_lookup _ _ _ Htn) as [-> ->]. simpl.
      rewrite IH. by rewrite <- app_assoc.
    + by rewrite index_out_of_bounds.
Qed.

(** X2. [ImmediateDescendants] is [ImmediateDescendantIDs] followed by a
    lookup of every child: it returns the elements of the children in the
    stored order, and panics when one of the child IDs it is to look up is
    not the ID of a node. *)
Theorem ImmediateDescendants_are_children (t : option Tree) (id : NodeID) :
  Tree.ImmediateDescendants t id =
    ids ← Tree.ImmediateDescendantIDs t id;
    match t with
    | Some tree =>
        if forallb (in_bounds (Nodes tree)) ids then Ok (data_of (Nodes tree) <$> ids)
        else Panic index_out_of_range
    | None => Err errTreeIsNil
    end.
Proof.
  destruct t as [tree|]; [|done].
  unfold Tree.ImmediateDescendants, Tree.ImmediateDescendantIDs.
  destruct (out_of_range id (Nodes tree)); [done|].
  destruct (index (Nodes tree) id) as [tn| | |]; simpl; try done.
  apply children_data_spec.
Qed.

(** ** Parents *)

Lemma find_parent_first (id : NodeID) (nodes : list TreeNode) (i j : nat) (tn : TreeNode) :
  Tree.find_parent id nodes i = Some (j, tn) →
  ∃ k, j = i + k ∧ nodes !! k = Some tn ∧ id ∈ Children tn
    ∧ ∀ k' tn', k' < k → nodes !! k' = Some tn' → id ∉ Children tn'.
Proof.
  revert i. induction nodes as [|tn0 nodes IH]; intros i; simpl; [done|].
  destruct (existsb (N.eqb id) (Children tn0)) eqn:Hex.
  - intros [= <- <-]. exists 0. split_and!; [lia|done|by apply existsb_eqb_elem_of|lia].
  - intros H. apply IH in H as (k & -> & Hk & Hin & Hfirst).
    exists (S k). split_and!; [lia|done|done|].
    intros [|k'] tn' Hlt; simpl.
    + intros [= <-] Hin'. apply existsb_eqb_elem_of in Hin'. congruence.
    + apply Hfirst. lia.
Qed.

(** Past their guards [ParentID] and [Parent] are the scan. *)
Lemma ParentID_scan (t : Tree) (id : NodeID) :
  (node_count t <= 2 ^ 32)%N → (0 < id < node_count t)%N →
  Tree.ParentID (Some t) id =
    match Tree.find_parent id (Nodes t) 0 with
    | Some (j, _) => Ok (N.of_nat j)
    | None => Panic UNREACHABLE
    end
  ∧ Tree.Parent (Some t) id =
    match Tree.find_parent id (Nodes t) 0 with
    | Some (_, tn) => Ok (Data tn)
    | None => Panic UNREACHABLE
    end.
Proof.
  intros Hcount Hid. unfold Tree.ParentID, Tree.Parent.
  rewrite out_of_range_lt by (unfold node_count in Hid; lia).
  destruct (N.eqb_spec id 0) as [|_]; [lia|].
  destruct (Tree.find_parent id (Nodes t) 0) as [[j tn]|] eqn:Hfind; [|done].
  apply find_parent_Some in Hfind as (k & -> & Hk & _).
  pose proof (lookup_lt_Some _ _ _ Hk). simpl.
  by rewrite NodeID_of_int_small by (unfold node_count in Hcount; lia).
Qed.

(** X3. Whatever the shape of the tree, [ParentID] of an in-bounds ID
    other than 0 returns the first node, in storage order, that lists the
    ID, and reaches its panic exactly when no node lists it. *)
Theorem ParentID_first_lister (t : Tree) (id : NodeID) :
  (node_count t <= 2 ^ 32)%N →
  (0 < id < node_count t)%N →
  (∀ p, Tree.ParentID (Some t) id = Ok p ↔
        child_of t p id ∧ ∀ q, child_of t q id → (p <= q)%N)
  ∧ (Tree.ParentID (Some t) id = Panic UNREACHABLE ↔ ∀ q, ¬ child_of t q id).
Proof.
  intros Hcount Hid. destruct (ParentID_scan t id Hcount Hid) as [-> _].
  destruct (Tree.find_parent id (Nodes t) 0) as [[j tn]|] eqn:Hfind.
  - apply find_parent_first in Hfind as (k & -> & Hk & Hin & Hfirst). simpl.
    assert (child_of t (N.of_nat k) id) as Hchild by by eapply child_of_lookup.
    assert (∀ q, child_of t q id → (N.of_nat k <= q)%N) as Hmin.
    { intros q (tn' & Hq & Hin').
      destruct (decide (N.to_nat q < k)) as [Hlt|]; [|lia].
      by destruct (Hfirst _ _ Hlt Hq). }
    split.
    + intros p. split.
      * by intros [= <-].
      * intros [Hp Hpmin]. f_equal. specialize (Hmin p Hp).
        specialize (Hpmin _ Hchild). lia.
    + split; [done|]. intros Hnone. by destruct (Hnone _ Hchild).
  - split.
    + intros p. split; [done|]. intros [(tn & Hp & Hin) _].
      by destruct (find_parent_None _ _ _ _ _ Hfind Hp).
    + split; [|done]. intros _ q (tn & Hq & Hin).
      by destruct (find_parent_None _ _ _ _ _ Hfind Hq).
Qed.

Lemma example_tree_count : (node_count example_tree <= 2 ^ 32)%N.
Proof. by vm_compute. Qed.

Lemma ParentID_first_lister_witness :
  (∀ p, Tree.ParentID (Some example_tree) 3%N = Ok p ↔
        child_of example_tree p 3%N ∧ ∀ q, child_of example_tree q 3%N → (p <= q)%N)
  ∧ (Tree.ParentID (Some example_tree) 3%N = Panic UNREACHABLE ↔
     ∀ q, ¬ child_of example_tree q 3%N).
Proof. apply ParentID_first_lister; [apply example_tree_count|by vm_compute]. Defined.

(** X4. [Parent] is [ParentID] followed by [Get]: it fails and panics as
    [ParentID] does and otherwise returns the element stored under the
    parent's ID. *)
Theorem Parent_is_Get_of_ParentID (t : option Tree) (id : NodeID) :
  (∀ tree, t = Some tree → (node_count tree <= 2 ^ 32)%N) →
  Tree.Parent t id = p ← Tree.ParentID t id; Tree.Get t p.
Proof.
  intros Hcount. destruct t as [tree|]; [|done]. specialize (Hcount tree eq_refl).
  destruct (decide (0 < id < node_count tree)%N) as [Hid|Hid].
  - destruct (ParentID_scan tree id Hcount Hid) as [-> ->].
    destruct (Tree.find_parent id (Nodes tree) 0) as [[j tn]|] eqn:Hfind; [|done].
    apply find_parent_Some in Hfind as (k & -> & Hk & _). simpl.
    pose proof (lookup_lt_Some _ _ _ Hk).
    rewrite out_of_range_lt by lia.
    unfold index. by rewrite Nat2N.id, Hk.
  - unfold Tree.Parent, Tree.ParentID, out_of_range.
    destruct (Z.leb_spec (Z.of_nat (length (Nodes tree))) (Z.of_N id)); [done|].
    destruct (N.eqb_spec id 0); [done|]. unfold node_count in Hid. lia.
Qed.

Lemma Parent_is_Get_of_ParentID_witness :
  Tree.Parent (Some example_tree) 3%N
  = p ← Tree.ParentID (Some example_tree) 3%N; Tree.Get (Some example_tree) p.
Proof.
  apply Parent_is_Get_of_ParentID. intros tree [= <-]. apply example_tree_count.
Defined.

(** X5. In a tree that satisfies the unique-parent invariant and whose
    child IDs are IDs of nodes, [ParentID] inverts
    [ImmediateDescendantIDs]: [c] is among the children returned for [p]
    exactly when the parent returned for [c] is [p]. *)
Theorem ParentID_inverts_children (t : Tree) (p c : NodeID) :
  NodeIDs_uint32 t →
  children_in_bounds t →
  unique_parent t →
  (∃ cs, Tree.ImmediateDescendantIDs (Some t) p = Ok cs ∧ c ∈ cs)
  ↔ Tree.ParentID (Some t) c = Ok p.
Proof.
  intros Hty Hb Hup. pose proof (unique_parent_node_count t Hty Hup) as Hcount. split.
  - intros (cs & Hrun & Hc). unfold Tree.ImmediateDescendantIDs in Hrun.
    destruct (out_of_range p (Nodes t)); [done|].
    unfold index in Hrun. destruct (Nodes t !! N.to_nat p) as [tn|] eqn:Hp; [|done].
    simpl in Hrun. injection Hrun as <-.
    assert (child_of t p c) as Hchild by by exists tn.
    pose proof (child_is_not_root t p c Hup Hchild). pose proof (Hb p c Hchild).
    destruct (ParentID_scan t c Hcount) as [-> _]; [lia|].
    destruct (Tree.find_parent c (Nodes t) 0) as [[j tn']|] eqn:Hfind.
    + apply find_parent_Some in Hfind as (k & -> & Hk & Hin). simpl. f_equal.
      apply (unique_parent_eq t _ _ c Hb Hup); [by eapply child_of_lookup|done].
    + by destruct (find_parent_None _ _ _ _ _ Hfind Hp).
  - intros Hrun.
    assert (0 < c < node_count t)%N as Hc.
    { unfold Tree.ParentID, out_of_range in Hrun.
      destruct (Z.leb_spec (Z.of_nat (length (Nodes t))) (Z.of_N c)); [done|].
      destruct (N.eqb_spec c 0); [done|]. unfold node_count. lia. }
    destruct (ParentID_scan t c Hcount Hc) as [Heq _]. rewrite Heq in Hrun.
    destruct (Tree.find_parent c (Nodes t) 0) as [[j tn]|] eqn:Hfind; [|done].
    apply find_parent_Some in Hfind as (k & -> & Hk & Hin). simpl in Hrun.
    injection Hrun as <-. pose proof (lookup_lt_Some _ _ _ Hk).
    exists (Children tn). split; [|done]. unfold Tree.ImmediateDescendantIDs.
    rewrite out_of_range_lt by lia. unfold index. by rewrite Nat2N.id, Hk.
Qed.

Lemma ParentID_inverts_children_witness :
  (∃ cs, Tree.ImmediateDescendantIDs (Some example_tree) 1%N = Ok cs ∧ 3%N ∈ cs)
  ↔ Tree.ParentID (Some example_tree) 3%N = Ok 1%N.
Proof.
  apply ParentID_inverts_children.
  - apply (valid_uint32 _ example_tree_valid).
  - apply (valid_in_bounds _ example_tree_valid).
  - apply (valid_unique_parent _ example_tree_valid).
Defined.

(** ** Ancestors *)


Lemma ancestor_chain_in_bounds (t : Tree) (l : list NodeID) (n : NodeID) :
  ancestor_chain t n l → ∀ x, x ∈ l → (x < node_count t)%N.
Proof.
  revert n. induction l as [|p l IH]; intros n Hchain x Hx; [by apply elem_of_nil in Hx|].
  destruct Hchain as [(tn & Hp & _) Hl]. apply elem_of_cons in Hx as [->|Hx].
  - pose proof (lookup_lt_Some _ _ _ Hp). unfold node_count. lia.
  - by eapply IH.
Qed.

(** The chain of ancestors of a node of depth [d] has [d] entries, of
    depths below [d], all different. *)
Lemma ancestor_chain_depth (t : Tree) (l : list NodeID) (n : NodeID) (d : nat) :
  children_in_bounds t → unique_parent t →
  depth t n d → ancestor_chain t n l →
  length l = d ∧ NoDup l ∧ ∀ x, x ∈ l → ∃ d', d' < d ∧ depth t x d'.
Proof.
  intros Hb Hup. revert n d. induction l as [|p l IH]; intros n d Hd Hchain.
  - simpl in Hchain. subst n.
    rewrite (depth_functional t 0%N d 0 Hb Hup Hd (depth_root t)).
    split_and!; [done|constructor|]. intros x Hx. by apply elem_of_nil in Hx.
  - destruct Hchain as [Hp Hl].
    inversion Hd as [Heq|p' c d0 Hd0 Hp']; subst.
    { by destruct (child_is_not_root t p 0%N Hup Hp). }
    rewrite (unique_parent_eq t p' p n Hb Hup Hp' Hp) in Hd0.
    destruct (IH p d0 Hd0 Hl) as (Hlen & Hnd & Hlt). split_and!.
    + simpl. by rewrite Hlen.
    + apply NoDup_cons. split; [|done]. intros Hin.
      destruct (Hlt p Hin) as (d' & Hd' & Hpd').
      pose proof (depth_functional t p _ _ Hb Hup Hd0 Hpd'). lia.
    + intros x Hx. apply elem_of_cons in Hx as [->|Hx].
      * exists d0. split; [lia|done].
      * destruct (Hlt x Hx) as (d' & Hd' & Hxd'). exists d'. split; [lia|done].
Qed.





(** ** The parent table of any tree *)

Lemma NodeID_of_int_le (i : nat) : N.to_nat (NodeID_of_int i) ≤ i.
Proof.
  unfold NodeID_of_int. pose proof (N.Div0.mod_le (N.of_nat i) (2 ^ 32)). lia.
Qed.

Lemma record_parent_inv (i : nat) (cs : list NodeID) (all all' : list NodeID) :
  Tree.record_parent i cs all = Ok all' →
  Forall (λ c, N.to_nat c < length all) cs
  ∧ length all' = length all
  ∧ ∀ P : NodeID → Prop, P (NodeID_of_int i) → Forall P all → Forall P all'.
Proof.
  revert all. induction cs as [|c cs IH]; intros all; simpl.
  - intros [= <-]. by split_and!.
  - case_bool_decide as Hc; [|done]. intros Hrun.
    destruct (IH _ Hrun) as (Hcs & Hlen & HP). rewrite length_insert in Hcs, Hlen.
    split_and!; [by constructor|done|].
    intros P Hi Hall. apply HP; [done|]. by apply Forall_insert.
Qed.

Lemma record_parent_cases (i : nat) (cs : list NodeID) (all : list NodeID) :
  (∃ all', Tree.record_parent i cs all = Ok all')
  ∨ Tree.record_parent i cs all = Panic index_out_of_range.
Proof.
  revert all. induction cs as [|c cs IH]; intros all; simpl; [by left; eexists|].
  case_bool_decide; [apply IH|by right].
Qed.

Lemma record_parents_inv (nodes : list TreeNode) (i : nat) (all all' : list NodeID) :
  Tree.record_parents nodes i all = Ok all' →
  Forall (λ tn, Forall (λ c, N.to_nat c < length all) (Children tn)) nodes
  ∧ length all' = length all
  ∧ ∀ P : NodeID → Prop,
      (∀ j, i ≤ j < i + length nodes → P (NodeID_of_int j)) → Forall P all → Forall P all'.
Proof.
  revert i all. induction nodes as [|tn nodes IH]; intros i all; simpl.
  - intros [= <-]. by split_and!.
  - destruct (Tree.record_parent i (Children tn) all) as [all1| | |] eqn:Hrun1; try done.
    simpl. intros Hrun. destruct (record_parent_inv _ _ _ _ Hrun1) as (Hcs & Hlen1 & HP1).
    destruct (IH _ _ Hrun) as (Hrest & Hlen & HP). rewrite Hlen1 in Hrest, Hlen.
    split_and!; [by constructor|done|].
    intros P Hi Hall. apply HP; [intros j Hj; apply Hi; lia|].
    apply HP1; [apply Hi; lia|done].
Qed.

Lemma record_parents_cases (nodes : list TreeNode) (i : nat) (all : list NodeID) :
  (∃ all', Tree.record_parents nodes i all = Ok all')
  ∨ Tree.record_parents nodes i all = Panic index_out_of_range.
Proof.
  revert i all. induction nodes as [|tn nodes IH]; intros i all; simpl; [by left; eexists|].
  destruct (record_parent_cases i (Children tn) all) as [[all1 ->]| ->]; [apply IH|by right].
Qed.

(** Every entry of the table is the ID of a node. *)
Lemma parent_table_entries (nodes : list TreeNode) (all : list NodeID) :
  Tree.parent_table nodes = Ok all →
  length all = length nodes ∧ Forall (λ p, N.to_nat p < length nodes) all.
Proof.
  unfold Tree.parent_table. intros Hrun.
  destruct (record_parents_inv _ _ _ _ Hrun) as (_ & Hlen & HP).
  rewrite length_replicate in Hlen. split; [done|]. apply HP.
  - intros j Hj. pose proof (NodeID_of_int_le j). lia.
  - destruct nodes; [constructor|]. apply Forall_replicate. simpl. lia.
Qed.

Lemma children_in_bounds_iff (t : Tree) :
  children_in_bounds t ↔
  Forall (λ tn, Forall (λ c, N.to_nat c < length (Nodes t)) (Children tn)) (Nodes t).
Proof.
  split; [apply children_in_bounds_Forall|].
  intros Hall p c (tn & Hp & Hc).
  rewrite Forall_lookup in Hall. specialize (Hall _ _ Hp).
  rewrite Forall_forall in Hall. specialize (Hall _ Hc). unfold node_count. lia.
Qed.

Lemma ancestors_loop_data (nodes : list TreeNode) (all : list NodeID) (fuel : nat)
    (id : NodeID) (acc : list NodeID) :
  Forall (λ p, N.to_nat p < length nodes) all →
  Tree.ancestors_loop fuel nodes all id (data_of nodes <$> acc)
  = fmap (M := list) (data_of nodes) <$> Tree.ancestorIDs_loop fuel all id acc.
Proof.
  intros Hall. revert id acc. induction fuel as [|fuel IH]; intros id acc; simpl.
  - by destruct (id =? 0)%N.
  - destruct (id =? 0)%N; [done|].
    destruct (all !! N.to_nat id) as [p|] eqn:Hp; [|done].
    rewrite Forall_lookup in Hall. specialize (Hall _ _ Hp).
    destruct (lookup_lt_is_Some_2 nodes (N.to_nat p) Hall) as [tn Htn].
    destruct (index_lookup _ _ _ Htn) as [-> Hdata]. simpl.
    rewrite <- IH, fmap_app. simpl. by rewrite Hdata.
Qed.

Lemma ancestorIDs_loop_no_panic (all : list NodeID) (fuel : nat) (id : NodeID)
    (acc : list NodeID) :
  Forall (λ p, N.to_nat p < length all) all → N.to_nat id < length all →
  (∃ l, Tree.ancestorIDs_loop fuel all id acc = Ok l)
  ∨ Tree.ancestorIDs_loop fuel all id acc = OutOfFuel.
Proof.
  intros Hall. revert id acc. induction fuel as [|fuel IH]; intros id acc Hid; simpl.
  - destruct (id =? 0)%N; [by left; eexists|by right].
  - destruct (id =? 0)%N; [by left; eexists|].
    destruct (lookup_lt_is_Some_2 all (N.to_nat id) Hid) as [p Hp]. rewrite Hp.
    apply IH. rewrite Forall_lookup in Hall. by apply (Hall _ _ Hp).
Qed.

(** X8. On every tree and with every budget, [Ancestors] is [AncestorIDs]
    with each ID replaced by the element stored under it: the two return
    lists of the same length, fail, panic and run on together. *)
Theorem Ancestors_are_AncestorIDs_data (fuel : nat) (t : Tree) (id : NodeID) :
  Tree.Ancestors fuel (Some t) id
  = fmap (M := list) (data_of (Nodes t)) <$> Tree.AncestorIDs fuel (Some t) id.
Proof.
  unfold Tree.Ancestors, Tree.AncestorIDs.
  destruct (out_of_range id (Nodes t)); [done|].
  destruct (Tree.parent_table (Nodes t)) as [all| | |] eqn:Htable; try done. simpl.
  destruct (parent_table_entries _ _ Htable) as [_ Hall].
  by apply (ancestors_loop_data (Nodes t) all fuel id []).
Qed.

(** X9. For an in-bounds ID, [AncestorIDs] panics exactly when some node
    of the tree lists a child ID that is not the ID of a node, whichever
    node the ID names; it never reaches an error or another panic. *)
Theorem AncestorIDs_panics_on_dangling_child (fuel : nat) (t : Tree) (id : NodeID) :
  (id < node_count t)%N →
  (Tree.AncestorIDs fuel (Some t) id = Panic index_out_of_range ↔ ¬ children_in_bounds t)
  ∧ (children_in_bounds t →
     (∃ l, Tree.AncestorIDs fuel (Some t) id = Ok l)
     ∨ Tree.AncestorIDs fuel (Some t) id = OutOfFuel).
Proof.
  intros Hid. unfold Tree.AncestorIDs.
  rewrite out_of_range_lt by (unfold node_count in Hid; lia).
  destruct (record_parents_cases (Nodes t) 0 (replicate (length (Nodes t)) 0%N))
    as [[all Htable]|Htable]; unfold Tree.parent_table; rewrite Htable; simpl.
  - destruct (parent_table_entries _ _ Htable) as [Hlen Hall]. rewrite <- Hlen in Hall.
    assert (children_in_bounds t) as Hb.
    { apply children_in_bounds_iff. destruct (record_parents_inv _ _ _ _ Htable) as (H & _).
      by rewrite length_replicate in H. }
    destruct (ancestorIDs_loop_no_panic all fuel id [] Hall) as [[l Hl]|Hl];
      [unfold node_count in Hid; lia| |]; rewrite Hl.
    + split; [by split|]. intros _. left. by eexists.
    + split; [by split|]. intros _. by right.
  - split; [|intros Hb]; [split; [|done]; intros _ Hb|].
    all: destruct (parent_table_in_bounds t Hb) as (all & Hok & _);
      unfold Tree.parent_table in Hok; congruence.
Qed.

Lemma AncestorIDs_panics_on_dangling_child_witness :
  (Tree.AncestorIDs 1 (Some dangling_tree) 0%N = Panic index_out_of_range
   ↔ ¬ children_in_bounds dangling_tree)
  ∧ (children_in_bounds dangling_tree →
     (∃ l, Tree.AncestorIDs 1 (Some dangling_tree) 0%N = Ok l)
     ∨ Tree.AncestorIDs 1 (Some dangling_tree) 0%N = OutOfFuel).
Proof. apply AncestorIDs_panics_on_dangling_child. by vm_compute. Defined.

(** ** Leaves *)

(** Every entry of the stack pairs an ID with the node stored under it. *)
Definition stack_consistent (nodes : list TreeNode) (stack : list (NodeID * TreeNode)) : Prop :=
  Forall (λ e, nodes !! N.to_nat e.1 = Some e.2) stack.

Lemma push_children_nodes (nodes : list TreeNode) (cs : list NodeID)
    (stack : list (NodeID * TreeNode)) :
  Tree.push_child_nodes nodes cs stack.*2
  = (λ s : list (NodeID * TreeNode), s.*2) <$> Tree.push_children nodes cs stack.
Proof.
  revert stack. induction cs as [|c cs IH]; intros stack; simpl; [done|].
  destruct (index nodes c) as [tn| | |]; simpl; try done. apply (IH ((c, tn) :: stack)).
Qed.

Lemma push_children_consistent (nodes : list TreeNode) (cs : list NodeID)
    (stack stack' : list (NodeID * TreeNode)) :
  Tree.push_children nodes cs stack = Ok stack' →
  stack_consistent nodes stack → stack_consistent nodes stack'.
Proof.
  revert stack. induction cs as [|c cs IH]; intros stack; simpl; [by intros [= <-]|].
  unfold index. destruct (nodes !! N.to_nat c) as [tn|] eqn:Hc; simpl; [|done].
  intros Hrun Hstack. apply (IH _ Hrun). by constructor.
Qed.

Lemma leaves_loop_data (nodes : list TreeNode) (fuel : nat)
    (stack : list (NodeID * TreeNode)) (ids : list NodeID) :
  stack_consistent nodes stack →
  Tree.leaves_loop fuel nodes stack.*2 (data_of nodes <$> ids)
  = fmap (M := list) (data_of nodes) <$> Tree.leafIDs_loop fuel nodes stack ids.
Proof.
  revert stack ids. induction fuel as [|fuel IH]; intros [|[x tn] stack] ids Hstack;
    simpl; try done.
  apply Forall_cons in Hstack as [Hx Hstack]. simpl in Hx.
  destruct (Children tn) as [|c cs] eqn:Hcs.
  - rewrite <- IH by done. rewrite fmap_app. simpl. unfold data_of at 3. by rewrite Hx.
  - rewrite <- Hcs, push_children_nodes.
    destruct (Tree.push_children nodes (Children tn) stack) as [stack'| | |] eqn:Hpush;
      simpl; try done.
    apply IH. by eapply push_children_consistent.
Qed.

(** X10. On every tree and with every budget, [LeafDescendants] is
    [LeafDescendantIDs] with each ID replaced by the element stored under
    it, in the same order. *)
Theorem LeafDescendants_are_LeafDescendantIDs_data (fuel : nat) (t : Tree) (id : NodeID) :
  Tree.LeafDescendants fuel (Some t) id
  = fmap (M := list) (data_of (Nodes t)) <$> Tree.LeafDescendantIDs fuel (Some t) id.
Proof.
  unfold Tree.LeafDescendants, Tree.LeafDescendantIDs.
  destruct (out_of_range id (Nodes t)); [done|].
  unfold index. destruct (Nodes t !! N.to_nat id) as [tn|] eqn:Hid; simpl; [|done].
  apply (leaves_loop_data (Nodes t) fuel [(id, tn)] []). by repeat constructor.
Qed.

Lemma leafIDs_loop_fuel_mono (nodes : list TreeNode) (fuel fuel' : nat)
    (stack : list (NodeID * TreeNode)) (acc l : list NodeID) :
  Tree.leafIDs_loop fuel nodes stack acc = Ok l → fuel ≤ fuel' →
  Tree.leafIDs_loop fuel' nodes stack acc = Ok l.
Proof.
  revert fuel' stack acc. induction fuel as [|fuel IH]; intros fuel' [|[x tn] stack] acc;
    simpl; try done.
  - intros ? _. by destruct fuel'.
  - intros ? _. by destruct fuel'.
  - intros Hrun Hle. destruct fuel' as [|fuel']; [lia|]. simpl.
    destruct (Children tn); [apply IH; [done|lia]|].
    destruct (Tree.push_children nodes _ stack); simpl in *; try done. apply IH; [done|lia].
Qed.

Lemma push_children_app (nodes : list TreeNode) (cs : list NodeID)
    (stack stack2 : list (NodeID * TreeNode)) :
  Tree.push_children nodes cs (stack ++ stack2)
  = (λ s, s ++ stack2) <$> Tree.push_children nodes cs stack.
Proof.
  revert stack. induction cs as [|c cs IH]; intros stack; simpl; [done|].
  destruct (index nodes c) as [tn| | |]; simpl; try done. apply (IH ((c, tn) :: stack)).
Qed.

(** What lies deeper in the stack waits until the entries above it and
    all they push are done. *)
Lemma leafIDs_loop_app (nodes : list TreeNode) (f1 f2 : nat)
    (s1 s2 : list (NodeID * TreeNode)) (acc l1 l2 : list NodeID) :
  Tree.leafIDs_loop f1 nodes s1 acc = Ok l1 →
  Tree.leafIDs_loop f2 nodes s2 l1 = Ok l2 →
  Tree.leafIDs_loop (f1 + f2) nodes (s1 ++ s2) acc = Ok l2.
Proof.
  revert s1 acc. induction f1 as [|f1 IH]; intros [|[x tn] s1] acc H1 H2.
  - simpl in H1. by injection H1 as <-.
  - done.
  - simpl in H1. injection H1 as <-. apply (leafIDs_loop_fuel_mono nodes f2); [done|lia].
  - simpl in H1 |- *. destruct (Children tn); [by apply IH|].
    rewrite push_children_app.
    destruct (Tree.push_children nodes _ s1); simpl in *; try done. by apply IH.
Qed.

Lemma leafIDs_loop_acc (nodes : list TreeNode) (fuel : nat)
    (stack : list (NodeID * TreeNode)) (acc0 acc l : list NodeID) :
  Tree.leafIDs_loop fuel nodes stack acc = Ok l →
  Tree.leafIDs_loop fuel nodes stack (acc0 ++ acc) = Ok (acc0 ++ l).
Proof.
  revert stack acc. induction fuel as [|fuel IH]; intros [|[x tn] stack] acc; simpl;
    try done; try (by intros [= <-]).
  intros Hrun. destruct (Children tn); [rewrite <- app_assoc; by apply IH|].
  destruct (Tree.push_children nodes _ stack); simpl in *; try done. by apply IH.
Qed.

(** A stack whose entries each have their leaves yields the leaves of its
    entries from the top down. *)
Lemma leafIDs_loop_stack (nodes : list TreeNode) (stack : list (NodeID * TreeNode))
    (ls : list (list NodeID)) (acc : list NodeID) :
  Forall2 (λ e l, ∃ f, Tree.leafIDs_loop f nodes [e] [] = Ok l) stack ls →
  ∃ f, Tree.leafIDs_loop f nodes stack acc = Ok (acc ++ mjoin ls).
Proof.
  intros Hall. revert acc. induction Hall as [|e l stack ls [f1 He] _ IH]; intros acc.
  - exists 0. simpl. by rewrite app_nil_r.
  - destruct (IH (acc ++ l)) as [f2 Hrest]. exists (f1 + f2).
    apply (leafIDs_loop_app nodes f1 f2 [e] stack acc (acc ++ l)).
    + rewrite <- (app_nil_r acc) at 1. by apply leafIDs_loop_acc.
    + simpl. by rewrite app_assoc.
Qed.

Lemma push_children_stack (t : Tree) (cs : list NodeID) (ls : list (list NodeID))
    (stack : list (NodeID * TreeNode)) (ls0 : list (list NodeID)) :
  Forall2 (λ c l, ∃ f, Tree.LeafDescendantIDs f (Some t) c = Ok l) cs ls →
  Forall2 (λ e l, ∃ f, Tree.leafIDs_loop f (Nodes t) [e] [] = Ok l) stack ls0 →
  ∃ stack', Tree.push_children (Nodes t) cs stack = Ok stack'
    ∧ Forall2 (λ e l, ∃ f, Tree.leafIDs_loop f (Nodes t) [e] [] = Ok l)
        stack' (reverse ls ++ ls0).
Proof.
  intros Hcs. revert stack ls0. induction Hcs as [|c l cs ls [f Hc] _ IH]; intros stack ls0 Hs.
  - by exists stack.
  - unfold Tree.LeafDescendantIDs in Hc.
    destruct (out_of_range c (Nodes t)); [done|]. simpl.
    destruct (index (Nodes t) c) as [tn| | |]; simpl in *; try done.
    destruct (IH ((c, tn) :: stack) (l :: ls0)) as (stack' & Hpush & Hall).
    { constructor; [by exists f|done]. }
    exists stack'. split; [done|]. by rewrite reverse_cons, <- app_assoc.
Qed.

(** X11. The order of the leaves.  [LeafDescendantIDs] of a leaf is the
    leaf itself; [LeafDescendantIDs] of a node with children is the
    concatenation of the results for its children, the last child first:
    the traversal is depth first and visits the children in the reverse of
    their stored order. *)
Theorem LeafDescendantIDs_order (t : Tree) (n : NodeID) (tn : TreeNode)
    (ls : list (list NodeID)) :
  Nodes t !! N.to_nat n = Some tn →
  Forall2 (λ c l, ∃ f, Tree.LeafDescendantIDs f (Some t) c = Ok l) (Children tn) ls →
  ∃ f0, ∀ fuel, (f0 ≤ fuel)%nat →
    Tree.LeafDescendantIDs fuel (Some t) n
    = Ok (if bool_decide (Children tn = []) then [n] else mjoin (reverse ls)).
Proof.
  intros Hn Hcs. pose proof (lookup_lt_Some _ _ _ Hn) as Hlt.
  unfold Tree.LeafDescendantIDs. rewrite out_of_range_lt by lia.
  destruct (index_lookup _ _ _ Hn) as [-> _]. simpl.
  destruct (Children tn) as [|c cs] eqn:Hchildren.
  - rewrite bool_decide_eq_true_2 by done.
    exists 1. intros [|fuel] Hfuel; [lia|]. simpl. rewrite Hchildren. by destruct fuel.
  - rewrite bool_decide_eq_false_2 by done.
    destruct (push_children_stack t (c :: cs) ls [] [] Hcs) as (stack' & Hpush & Hall);
      [constructor|].
    rewrite app_nil_r in Hall.
    destruct (leafIDs_loop_stack (Nodes t) stack' (reverse ls) [] Hall) as [f Hrun].
    exists (S f). intros [|fuel] Hfuel; [lia|]. simpl. rewrite Hchildren, Hpush. simpl.
    apply (leafIDs_loop_fuel_mono (Nodes t) f); [done|lia].
Qed.

Lemma LeafDescendantIDs_order_witness :
  ∃ f0, ∀ fuel, (f0 ≤ fuel)%nat →
    Tree.LeafDescendantIDs fuel (Some example_tree) 0%N = Ok [2; 3]%N.
Proof.
  apply (LeafDescendantIDs_order example_tree 0%N
           {| Data := Some Root_element; Children := [1; 2]%N |} [[3%N]; [2%N]]).
  - reflexivity.
  - repeat constructor; [by exists 2|by exists 1].
Defined.

(** ** The leaves of a subtree, whatever the child lists repeat *)

Lemma depth_ancestor_chain (t : Tree) (n : NodeID) (d : nat) :
  depth t n d → ∃ l, ancestor_chain t n l.
Proof.
  induction 1 as [|p c d _ [l Hl] Hc]; [by exists []|]. by exists (p :: l).
Qed.

Lemma depth_lt_node_count (t : Tree) (n : NodeID) (d : nat) :
  children_in_bounds t → unique_parent t → (n < node_count t)%N →
  depth t n d → d < length (Nodes t).
Proof.
  intros Hb Hup Hn Hd. destruct (depth_ancestor_chain t n d Hd) as [l Hl].
  destruct (ancestor_chain_depth t l n d Hb Hup Hd Hl) as (Hlen & Hnd & Hlt).
  assert (length (n :: l) ≤ length (Nodes t)) as Hbound.
  { apply NoDup_bounded_length.
    - apply NoDup_cons. split; [|done]. intros Hin.
      destruct (Hlt n Hin) as (d' & Hd' & Hnd').
      pose proof (depth_functional t n _ _ Hb Hup Hd Hnd'). lia.
    - intros y Hy. apply elem_of_cons in Hy as [->|Hy]; [done|].
      by apply (ancestor_chain_in_bounds t l n). }
  simpl in Hbound. lia.
Qed.

Lemma descendant_of_child (t : Tree) (n c x : NodeID) :
  child_of t n c → descendant t c x → descendant t n x.
Proof.
  intros Hc. induction 1 as [|p c' _ IH Hc'].
  - eapply descendant_step; [constructor|done].
  - by eapply descendant_step.
Qed.

Lemma descendant_inv (t : Tree) (n x : NodeID) :
  descendant t n x → x = n ∨ ∃ c, child_of t n c ∧ descendant t c x.
Proof.
  induction 1 as [|p c _ [->|(c0 & Hc0 & Hd)] Hc]; [by left|..]; right.
  - exists c. split; [done|constructor].
  - exists c0. split; [done|]. by eapply descendant_step.
Qed.

Lemma Forall_exists_Forall2 {A B : Type} (R : A → B → Prop) (l : list A) :
  Forall (λ x, ∃ y, R x y) l → ∃ k, Forall2 R l k.
Proof.
  induction 1 as [|x l [y Hy] _ [k Hk]]; [by exists []|]. exists (y :: k). by constructor.
Qed.

Lemma LeafDescendantIDs_fuel_mono (t : Tree) (n : NodeID) (fuel fuel' : nat)
    (l : list NodeID) :
  Tree.LeafDescendantIDs fuel (Some t) n = Ok l → fuel ≤ fuel' →
  Tree.LeafDescendantIDs fuel' (Some t) n = Ok l.
Proof.
  unfold Tree.LeafDescendantIDs. destruct (out_of_range n (Nodes t)); [done|].
  destruct (index (Nodes t) n) as [tn| | |]; simpl; try done.
  apply leafIDs_loop_fuel_mono.
Qed.

Lemma LeafDescendantIDs_of_children (t : Tree) (n : NodeID) (tn : TreeNode)
    (ls : list (list NodeID)) :
  Nodes t !! N.to_nat n = Some tn →
  Children tn ≠ [] →
  Forall2 (λ c l, ∃ f, Tree.LeafDescendantIDs f (Some t) c = Ok l) (Children tn) ls →
  ∃ f, Tree.LeafDescendantIDs f (Some t) n = Ok (mjoin (reverse ls)).
Proof.
  intros Hn Hne Hcs. pose proof (lookup_lt_Some _ _ _ Hn) as Hlt.
  unfold Tree.LeafDescendantIDs. rewrite out_of_range_lt by lia.
  destruct (index_lookup _ _ _ Hn) as [-> _]. simpl.
  destruct (Children tn) as [|c cs] eqn:Hchildren; [done|].
  destruct (push_children_stack t (c :: cs) ls [] [] Hcs) as (stack' & Hpush & Hall);
    [constructor|].
  rewrite app_nil_r in Hall.
  destruct (leafIDs_loop_stack (Nodes t) stack' (reverse ls) [] Hall) as [f Hrun].
  exists (S f). simpl. rewrite Hchildren, Hpush. done.
Qed.

Lemma leaves_of_subtree (t : Tree) :
  children_in_bounds t → unique_parent t →
  ∀ k n d, depth t n d → length (Nodes t) - d ≤ k → (n < node_count t)%N →
  ∃ l, (∃ f, Tree.LeafDescendantIDs f (Some t) n = Ok l)
    ∧ ∀ x, x ∈ l ↔ is_leaf t x ∧ descendant t n x.
Proof.
  intros Hb Hup. induction k as [|k IH]; intros n d Hd Hk Hn.
  { pose proof (depth_lt_node_count t n d Hb Hup Hn Hd). lia. }
  destruct (index_in_range (Nodes t) n Hn) as (tn & Htn & Hindex).
  destruct (decide (Children tn = [])) as [Hleaf|Hinner].
  - exists [n]. split.
    + exists 1. unfold Tree.LeafDescendantIDs. rewrite out_of_range_lt by done.
      rewrite Hindex. simpl. by rewrite Hleaf.
    + intros x. rewrite list_elem_of_singleton. split.
      * intros ->. split; [by exists tn|constructor].
      * intros [_ Hx]. apply descendant_inv in Hx as [->|(c & (tn' & Htn' & Hc) & _)]; [done|].
        simplify_eq. rewrite Hleaf in Hc. by apply elem_of_nil in Hc.
  - assert (Forall (λ c, ∃ l, (∃ f, Tree.LeafDescendantIDs f (Some t) c = Ok l)
                             ∧ ∀ x, x ∈ l ↔ is_leaf t x ∧ descendant t c x) (Children tn))
      as Hall.
    { apply Forall_forall. intros c Hc.
      assert (child_of t n c) as Hchild by (by exists tn).
      apply (IH c (S d)); [by eapply depth_child|lia|by eapply Hb]. }
    apply Forall_exists_Forall2 in Hall as [ls Hls].
    destruct (LeafDescendantIDs_of_children t n tn ls Htn Hinner) as [f Hrun].
    { eapply Forall2_impl; [exact Hls|]. by intros c l [? _]. }
    exists (mjoin (reverse ls)). split; [by exists f|].
    intros x. rewrite list_elem_of_join. setoid_rewrite elem_of_reverse. split.
    + intros (l & Hx & Hl).
      apply list_elem_of_lookup in Hl as [i Hi].
      destruct (Forall2_lookup_r _ _ _ _ _ Hls Hi) as (c & Hc & _ & Hmem).
      apply Hmem in Hx as [Hleaf Hdesc]. split; [done|].
      eapply descendant_of_child; [|done]. exists tn. split; [done|].
      by eapply list_elem_of_lookup_2.
    + intros [Hleaf Hdesc].
      apply descendant_inv in Hdesc as [->|(c & (tn' & Htn' & Hc) & Hdesc)].
      { destruct Hleaf as (tn' & Htn' & Hnil). by simplify_eq. }
      simplify_eq. apply list_elem_of_lookup in Hc as [i Hi].
      destruct (Forall2_lookup_l _ _ _ _ _ Hls Hi) as (l & Hl & _ & Hmem).
      exists l. split; [by apply Hmem|]. by eapply list_elem_of_lookup_2.
Qed.

(** C6. In a valid tree, for every in-bounds [n], [LeafDescendantIDs n]
    returns; it returns nodes of the subtree rooted at [n] that have an
    empty child list only, and every such node is in the list.  When no
    node lists the same child twice, every such node is in the list exactly
    once, and as many iterations as the tree has nodes are enough. *)
Theorem leaf_descendants_of_valid_tree (t : Tree) (n : NodeID) :
  NodeIDs_uint32 t →
  children_in_bounds t →
  unique_parent t →
  (∀ m, (m < node_count t)%N → descendant t 0%N m) →
  (n < node_count t)%N →
  ∃ l, (∃ f0, ∀ fuel, (f0 ≤ fuel)%nat → Tree.LeafDescendantIDs fuel (Some t) n = Ok l)
    ∧ (∀ x, x ∈ l → is_leaf t x)
    ∧ (∀ x, descendant t n x → is_leaf t x → x ∈ l)
    ∧ (∀ x, x ∈ l → descendant t n x)
    ∧ ((∀ tn, tn ∈ Nodes t → NoDup (Children tn)) →
       NoDup l
       ∧ ∀ fuel, (length (Nodes t) ≤ fuel)%nat →
           Tree.LeafDescendantIDs fuel (Some t) n = Ok l).
Proof.
  intros Hu Hb Hup Hconn Hn.
  destruct (descendant_of_root_depth t n (Hconn n Hn)) as [d Hd].
  destruct (leaves_of_subtree t Hb Hup (length (Nodes t) - d) n d Hd (le_n _) Hn)
    as (l & [f Hf] & Hl).
  exists l. split_and!.
  - exists f. intros fuel Hfuel. by apply (LeafDescendantIDs_fuel_mono t n f).
  - intros x Hx. by apply Hl.
  - intros x Hdesc Hleaf. by apply Hl.
  - intros x Hx. by apply Hl.
  - intros Honce.
    assert (valid_tree t) as Hv.
    { split; try done. intros Hnil. unfold node_count in Hn. rewrite Hnil in Hn.
      simpl in Hn. lia. }
    destruct (index_in_range (Nodes t) n Hn) as (tn & Htn & Hindex).
    destruct (leafIDs_loop_spec t n Hv Hn (length (Nodes t)) [(n, tn)] [] [])
      as (l' & Hrun & Hnd & _); [by apply traversal_inv_init|simpl; lia|].
    assert (∀ fuel, length (Nodes t) ≤ fuel →
              Tree.LeafDescendantIDs fuel (Some t) n = Ok l') as Hrun'.
    { intros fuel Hfuel. unfold Tree.LeafDescendantIDs.
      rewrite out_of_range_lt by done. rewrite Hindex. simpl. by apply Hrun. }
    assert (l' = l) as ->.
    { pose proof (Hrun' (max f (length (Nodes t))) ltac:(lia)) as H1.
      pose proof (LeafDescendantIDs_fuel_mono t n f (max f (length (Nodes t))) l Hf
                    ltac:(lia)) as H2.
      congruence. }
    done.
Qed.

Lemma leaf_descendants_of_valid_tree_witness :
  ∃ l, (∃ f0, ∀ fuel, (f0 ≤ fuel)%nat →
          Tree.LeafDescendantIDs fuel (Some example_tree) 0%N = Ok l)
    ∧ (∀ x, x ∈ l → is_leaf example_tree x)
    ∧ (∀ x, descendant example_tree 0%N x → is_leaf example_tree x → x ∈ l)
    ∧ (∀ x, x ∈ l → descendant example_tree 0%N x)
    ∧ ((∀ tn, tn ∈ Nodes example_tree → NoDup (Children tn)) →
       NoDup l
       ∧ ∀ fuel, (length (Nodes example_tree) ≤ fuel)%nat →
           Tree.LeafDescendantIDs fuel (Some example_tree) 0%N = Ok l).
Proof.
  apply leaf_descendants_of_valid_tree.
  - apply (valid_uint32 _ example_tree_valid).
  - apply (valid_in_bounds _ example_tree_valid).
  - apply (valid_unique_parent _ example_tree_valid).
  - apply (valid_connected _ example_tree_valid).
  - by vm_compute.
Defined.

(** C6, as first stated, fails on a tree whose root lists a child twice.
    [repeated_child_tree] has a node, its child IDs are IDs of nodes, node
    0 is listed by no node and node 1 by exactly one, and both nodes hang
    from the root; node 1 is a leaf of the subtree of the root, and
    [LeafDescendantIDs 0] returns it twice. *)
Theorem repeated_child_is_collected_twice :
  NodeIDs_uint32 repeated_child_tree
  ∧ Nodes repeated_child_tree ≠ []
  ∧ children_in_bounds repeated_child_tree
  ∧ unique_parent repeated_child_tree
  ∧ (∀ n, (n < node_count repeated_child_tree)%N → descendant repeated_child_tree 0%N n)
  ∧ is_leaf repeated_child_tree 1%N
  ∧ (∀ fuel, (3 ≤ fuel)%nat →
       Tree.LeafDescendantIDs fuel (Some repeated_child_tree) 0%N = Ok [1; 1]%N)
  ∧ ¬ NoDup [1; 1]%N.
Proof.
  assert (child_of repeated_child_tree 0 1)%N as H01 by edge_found.
  split_and!.
  - intros p c H. edge_cases H; by vm_compute.
  - discriminate.
  - intros p c H. edge_cases H; by vm_compute.
  - split.
    + intros n Hn. change (node_count repeated_child_tree) with 2%N in Hn.
      assert (n = 1)%N as -> by lia.
      exists 0%N. split; [done|]. intros q H. edge_cases H; done.
    + intros p H. edge_cases H; done.
  - intros n Hn. change (node_count repeated_child_tree) with 2%N in Hn.
    assert (n = 0 ∨ n = 1)%N as [->| ->] by lia.
    + constructor.
    + eapply descendant_step; [constructor|done].
  - by eexists.
  - intros fuel Hfuel. do 3 (destruct fuel as [|fuel]; [lia|]). by destruct fuel.
  - intros H. apply NoDup_cons in H as [H _]. apply H. by left.
Qed.




(** * Properties of the topology filters *)

Lemma getAllProcessingKind_loop_filter (kind : ProcessingKind) (nodes : list TreeNode)
    (id : nat) (ret : list NodeID) :
  getAllProcessingKind_loop nodes id kind ret = filter_loop (test_kind kind) nodes id ret.
Proof.
  revert id ret. induction nodes as [|tn nodes IH]; intros id ret; simpl; [done|].
  destruct (Data tn) as [e|]; [|done]. unfold test_kind.
  destruct (IsProcessing e); [|apply IH].
  destruct (Element_Processing e) as [p|]; [|done]. case_bool_decide; apply IH.
Qed.

Lemma getAllCacheLevel_loop_filter (level : CacheLevel) (nodes : list TreeNode)
    (id : nat) (ret : list NodeID) :
  getAllCacheLevel_loop nodes id level ret = filter_loop (test_level level) nodes id ret.
Proof.
  revert id ret. induction nodes as [|tn nodes IH]; intros id ret; simpl; [done|].
  destruct (Data tn) as [e|]; [|done]. unfold test_level.
  destruct (IsCache e); [|apply IH].
  destruct (Element_Cache e) as [c|]; [|done]. case_bool_decide; apply IH.
Qed.

(** A loop whose test does not fail panics exactly on a nil element;
    otherwise it appends, in ascending order, the indices of the nodes
    whose element passes the test. *)
Lemma filter_loop_spec (test : Element → option bool) (nodes : list TreeNode) (i : nat)
    (ret : list NodeID) :
  (∀ e, test e ≠ None) →
  (N.of_nat (i + length nodes) <= 2 ^ 32)%N →
  (filter_loop test nodes i ret = None ↔ ∃ tn, tn ∈ nodes ∧ Data tn = None)
  ∧ ∀ ids, filter_loop test nodes i ret = Some ids →
      ∃ new, ids = ret ++ new
        ∧ (∀ x, x ∈ new ↔ ∃ j tn e, nodes !! j = Some tn ∧ x = N.of_nat (i + j)
                              ∧ Data tn = Some e ∧ test e = Some true)
        ∧ StronglySorted N.lt new
        ∧ Forall (λ x, (N.of_nat i <= x)%N) new.
Proof.
  intros Htest. revert i ret. induction nodes as [|tn nodes IH]; intros i ret Hcount; simpl.
  - split.
    + split; [done|]. intros (tn & Htn & _). by apply elem_of_nil in Htn.
    + intros ids [= <-]. exists []. rewrite app_nil_r. split_and!; [done| |constructor..].
      intros x. split; [intros Hx; by apply elem_of_nil in Hx|].
      intros (j & tn & e & Hj & _). by rewrite lookup_nil in Hj.
  - simpl in Hcount. destruct (Data tn) as [e|] eqn:Hdata.
    2: { split; [|done]. split; [|done]. intros _. exists tn. split; [by left|done]. }
    assert (∀ ret', (filter_loop test nodes (S i) ret' = None ↔
                     ∃ tn0, tn0 ∈ tn :: nodes ∧ Data tn0 = None)) as Hnone.
    { intros ret'. destruct (IH (S i) ret') as [-> _]; [lia|]. split.
      - intros (tn0 & Hin & Hnil). exists tn0. split; [by right|done].
      - intros (tn0 & Hin & Hnil). exists tn0. split; [|done].
        apply elem_of_cons in Hin as [->|Hin]; [congruence|done]. }
    destruct (test e) as [[]|] eqn:Hte; [| |by destruct (Htest e)].
    + split; [apply Hnone|]. intros ids Hrun.
      destruct (IH (S i) (ret ++ [NodeID_of_int i])) as [_ Hsome]; [lia|].
      destruct (Hsome ids Hrun) as (new & -> & Hmem & Hsorted & Hge).
      rewrite NodeID_of_int_small by lia.
      exists (N.of_nat i :: new). split_and!.
      * by rewrite <- app_assoc.
      * intros x. rewrite elem_of_cons, Hmem. split.
        -- intros [->|(j & tn' & e' & Hj & -> & He')].
           ++ exists 0, tn, e. by rewrite Nat.add_0_r.
           ++ exists (S j), tn', e'. split; [done|]. split; [f_equal; lia|done].
        -- intros ([|j] & tn' & e' & Hj & -> & He'); [left; f_equal; lia|].
           right. exists j, tn', e'. split; [done|]. split; [f_equal; lia|done].
      * constructor; [done|]. eapply Forall_impl; [exact Hge|]. simpl. lia.
      * constructor; [lia|]. eapply Forall_impl; [exact Hge|]. simpl. lia.
    + split; [apply Hnone|]. intros ids Hrun.
      destruct (IH (S i) ret) as [_ Hsome]; [lia|].
      destruct (Hsome ids Hrun) as (new & -> & Hmem & Hsorted & Hge).
      exists new. split_and!; [done| |done|].
      * intros x. rewrite Hmem. split.
        -- intros (j & tn' & e' & Hj & -> & He'). exists (S j), tn', e'.
           split; [done|]. split; [f_equal; lia|done].
        -- intros ([|j] & tn' & e' & Hj & -> & Hd & He'); simpl in Hj.
           ++ simplify_eq.
           ++ exists j, tn', e'. split; [done|]. split; [f_equal; lia|done].
      * eapply Forall_impl; [exact Hge|]. simpl. lia.
Qed.

Lemma test_kind_total (kind : ProcessingKind) (e : Element) : test_kind kind e ≠ None.
Proof.
  unfold test_kind, IsProcessing. destruct (Element_Processing e), (Element_Cache e); done.
Qed.

Lemma test_level_total (level : CacheLevel) (e : Element) : test_level level e ≠ None.
Proof.
  unfold test_level, IsCache. destruct (Element_Processing e), (Element_Cache e); done.
Qed.

Lemma test_kind_true (kind : ProcessingKind) (tn : TreeNode) :
  (∃ e, Data tn = Some e ∧ test_kind kind e = Some true) ↔ processing_of_kind kind tn.
Proof.
  unfold processing_of_kind, test_kind. split.
  - intros (e & Hd & Ht). destruct (IsProcessing e) eqn:Hp; [|done].
    destruct (Element_Processing e) as [p|] eqn:He; [|done].
    injection Ht as Ht%bool_decide_eq_true. by exists e, p.
  - intros (e & p & Hd & Hp & He & Hk). exists e. split; [done|].
    by rewrite Hp, He, bool_decide_eq_true_2.
Qed.

Lemma test_level_true (level : CacheLevel) (tn : TreeNode) :
  (∃ e, Data tn = Some e ∧ test_level level e = Some true) ↔ cache_of_level level tn.
Proof.
  unfold cache_of_level, test_level. split.
  - intros (e & Hd & Ht). destruct (IsCache e) eqn:Hp; [|done].
    destruct (Element_Cache e) as [c|] eqn:He; [|done].
    injection Ht as Ht%bool_decide_eq_true. by exists e, c.
  - intros (e & c & Hd & Hp & He & Hk). exists e. split; [done|].
    by rewrite Hp, He, bool_decide_eq_true_2.
Qed.

(** X13. [getAllProcessingKind], which [Packages], [NUMANodes], [Cores]
    and [Threads] call: it panics exactly when the tree is nil or a node
    has a nil element; otherwise it returns, in ascending order and each
    once, the IDs of the nodes that hold a processing element of the kind,
    the empty list when there is none. *)
Theorem getAllProcessingKind_spec (t : Topology) (kind : ProcessingKind) :
  (∀ tree, Topology_Tree t = Some tree → (node_count tree <= 2 ^ 32)%N) →
  (getAllProcessingKind t kind = None ↔
     Topology_Tree t = None
     ∨ ∃ tree tn, Topology_Tree t = Some tree ∧ tn ∈ Nodes tree ∧ Data tn = None)
  ∧ ∀ ids, getAllProcessingKind t kind = Some ids →
      ∃ tree, Topology_Tree t = Some tree
        ∧ (∀ x, x ∈ ids ↔
                ∃ tn, Nodes tree !! N.to_nat x = Some tn ∧ processing_of_kind kind tn)
        ∧ StronglySorted N.lt ids.
Proof.
  intros Hcount. unfold getAllProcessingKind.
  destruct (Topology_Tree t) as [tree|]; [|split; [by split; [left|]|done]].
  specialize (Hcount tree eq_refl). rewrite getAllProcessingKind_loop_filter.
  destruct (filter_loop_spec (test_kind kind) (Nodes tree) 0 [] (test_kind_total kind))
    as [Hnone Hsome]; [by unfold node_count in Hcount|].
  split.
  - rewrite Hnone. split.
    + intros (tn & Hin & Hnil). right. by exists tree, tn.
    + intros [|(tree' & tn & [= <-] & Hin & Hnil)]; [done|]. by exists tn.
  - intros ids Hrun. destruct (Hsome ids Hrun) as (new & -> & Hmem & Hsorted & _).
    exists tree. split_and!; try done.
    intros x. rewrite Hmem. split.
    + intros (j & tn & e & Hj & -> & He). exists tn. rewrite Nat2N.id.
      split; [done|]. apply test_kind_true. by exists e.
    + intros (tn & Hx & Hkind). apply test_kind_true in Hkind as (e & He).
      exists (N.to_nat x), tn, e. split; [done|]. split; [simpl; lia|done].
Qed.

(** X14. [getAllCacheLevel], which [L1Caches] to [L5Caches] call: the same
    for the caches of a level. *)
Theorem getAllCacheLevel_spec (t : Topology) (level : CacheLevel) :
  (∀ tree, Topology_Tree t = Some tree → (node_count tree <= 2 ^ 32)%N) →
  (getAllCacheLevel t level = None ↔
     Topology_Tree t = None
     ∨ ∃ tree tn, Topology_Tree t = Some tree ∧ tn ∈ Nodes tree ∧ Data tn = None)
  ∧ ∀ ids, getAllCacheLevel t level = Some ids →
      ∃ tree, Topology_Tree t = Some tree
        ∧ (∀ x, x ∈ ids ↔
                ∃ tn, Nodes tree !! N.to_nat x = Some tn ∧ cache_of_level level tn)
        ∧ StronglySorted N.lt ids.
Proof.
  intros Hcount. unfold getAllCacheLevel.
  destruct (Topology_Tree t) as [tree|]; [|split; [by split; [left|]|done]].
  specialize (Hcount tree eq_refl). rewrite getAllCacheLevel_loop_filter.
  destruct (filter_loop_spec (test_level level) (Nodes tree) 0 [] (test_level_total level))
    as [Hnone Hsome]; [by unfold node_count in Hcount|].
  split.
  - rewrite Hnone. split.
    + intros (tn & Hin & Hnil). right. by exists tree, tn.
    + intros [|(tree' & tn & [= <-] & Hin & Hnil)]; [done|]. by exists tn.
  - intros ids Hrun. destruct (Hsome ids Hrun) as (new & -> & Hmem & Hsorted & _).
    exists tree. split_and!; try done.
    intros x. rewrite Hmem. split.
    + intros (j & tn & e & Hj & -> & He). exists tn. rewrite Nat2N.id.
      split; [done|]. apply test_level_true. by exists e.
    + intros (tn & Hx & Hkind). apply test_level_true in Hkind as (e & He).
      exists (N.to_nat x), tn, e. split; [done|]. split; [simpl; lia|done].
Qed.

Lemma example_topology_count (tree : Tree) :
  Topology_Tree example_topology = Some tree → (node_count tree <= 2 ^ 32)%N.
Proof. intros [= <-]. by vm_compute. Qed.

(** The scenario of the specification: the NUMA nodes are nodes 1 and 2,
    and there is no package. *)
Example example_topology_filters :
  NUMANodes example_topology = Some [1; 2]%N
  ∧ Cores example_topology = Some [3%N]
  ∧ Packages example_topology = Some []
  ∧ L3Caches example_topology = Some [].
Proof. by split_and!. Qed.

Lemma getAllProcessingKind_spec_witness :
  (getAllProcessingKind example_topology NUMANode = None ↔
     Topology_Tree example_topology = None
     ∨ ∃ tree tn, Topology_Tree example_topology = Some tree
                  ∧ tn ∈ Nodes tree ∧ Data tn = None)
  ∧ ∀ ids, getAllProcessingKind example_topology NUMANode = Some ids →
      ∃ tree, Topology_Tree example_topology = Some tree
        ∧ (∀ x, x ∈ ids ↔
                ∃ tn, Nodes tree !! N.to_nat x = Some tn ∧ processing_of_kind NUMANode tn)
        ∧ StronglySorted N.lt ids.
Proof. apply getAllProcessingKind_spec. apply example_topology_count. Defined.

Lemma getAllCacheLevel_spec_witness :
  (getAllCacheLevel example_topology L3 = None ↔
     Topology_Tree example_topology = None
     ∨ ∃ tree tn, Topology_Tree example_topology = Some tree
                  ∧ tn ∈ Nodes tree ∧ Data tn = None)
  ∧ ∀ ids, getAllCacheLevel example_topology L3 = Some ids →
      ∃ tree, Topology_Tree example_topology = Some tree
        ∧ (∀ x, x ∈ ids ↔
                ∃ tn, Nodes tree !! N.to_nat x = Some tn ∧ cache_of_level L3 tn)
        ∧ StronglySorted N.lt ids.
Proof. apply getAllCacheLevel_spec. apply example_topology_count. Defined.

Lemma getAllProcessingKind_elem_of (t : Topology) (kind : ProcessingKind)
    (ids : list NodeID) (x : NodeID) :
  getAllProcessingKind t kind = Some ids → x ∈ ids →
  ∃ tree j tn, Topology_Tree t = Some tree ∧ Nodes tree !! j = Some tn
    ∧ x = NodeID_of_int j ∧ processing_of_kind kind tn.
Proof.
  unfold getAllProcessingKind. destruct (Topology_Tree t) as [tree|]; [|done].
  rewrite getAllProcessingKind_loop_filter. intros Hrun Hx. exists tree.
  assert (∀ nodes i ret ids, filter_loop (test_kind kind) nodes i ret = Some ids →
            ∀ x, x ∈ ids → x ∈ ret ∨ ∃ j tn, nodes !! j = Some tn
                                 ∧ x = NodeID_of_int (i + j) ∧ processing_of_kind kind tn) as H.
  { clear. intros nodes. induction nodes as [|tn nodes IH]; intros i ret ids; simpl.
    - intros [= <-] x Hx. by left.
    - destruct (Data tn) as [e|] eqn:Hd; [|done].
      destruct (test_kind kind e) as [[]|] eqn:Ht; [| |done]; intros Hrun x Hx.
      + destruct (IH _ _ _ Hrun x Hx) as [Hin|(j & tn' & Hj & -> & Hk)].
        * apply elem_of_app in Hin as [Hin|Hin%list_elem_of_singleton]; [by left|].
          right. exists 0, tn. rewrite Nat.add_0_r. split_and!; [done|done|].
          apply test_kind_true. by exists e.
        * right. exists (S j), tn'. split_and!; [done|f_equal; lia|done].
      + destruct (IH _ _ _ Hrun x Hx) as [Hin|(j & tn' & Hj & -> & Hk)]; [by left|].
        right. exists (S j), tn'. split_and!; [done|f_equal; lia|done]. }
  destruct (H _ _ _ _ Hrun x Hx) as [Hnil|(j & tn & Hj & -> & Hk)];
    [by apply elem_of_nil in Hnil|]. by exists j, tn.
Qed.

Lemma getAllCacheLevel_elem_of (t : Topology) (level : CacheLevel)
    (ids : list NodeID) (x : NodeID) :
  getAllCacheLevel t level = Some ids → x ∈ ids →
  ∃ tree j tn, Topology_Tree t = Some tree ∧ Nodes tree !! j = Some tn
    ∧ x = NodeID_of_int j ∧ cache_of_level level tn.
Proof.
  unfold getAllCacheLevel. destruct (Topology_Tree t) as [tree|]; [|done].
  rewrite getAllCacheLevel_loop_filter. intros Hrun Hx. exists tree.
  assert (∀ nodes i ret ids, filter_loop (test_level level) nodes i ret = Some ids →
            ∀ x, x ∈ ids → x ∈ ret ∨ ∃ j tn, nodes !! j = Some tn
                                 ∧ x = NodeID_of_int (i + j) ∧ cache_of_level level tn) as H.
  { clear. intros nodes. induction nodes as [|tn nodes IH]; intros i ret ids; simpl.
    - intros [= <-] x Hx. by left.
    - destruct (Data tn) as [e|] eqn:Hd; [|done].
      destruct (test_level level e) as [[]|] eqn:Ht; [| |done]; intros Hrun x Hx.
      + destruct (IH _ _ _ Hrun x Hx) as [Hin|(j & tn' & Hj & -> & Hk)].
        * apply elem_of_app in Hin as [Hin|Hin%list_elem_of_singleton]; [by left|].
          right. exists 0, tn. rewrite Nat.add_0_r. split_and!; [done|done|].
          apply test_level_true. by exists e.
        * right. exists (S j), tn'. split_and!; [done|f_equal; lia|done].
      + destruct (IH _ _ _ Hrun x Hx) as [Hin|(j & tn' & Hj & -> & Hk)]; [by left|].
        right. exists (S j), tn'. split_and!; [done|f_equal; lia|done]. }
  destruct (H _ _ _ _ Hrun x Hx) as [Hnil|(j & tn & Hj & -> & Hk)];
    [by apply elem_of_nil in Hnil|]. by exists j, tn.
Qed.

(** X15. No node is returned by two filters: the lists for two different
    kinds, for two different levels, and for a kind and a level have no ID
    in common. *)
Theorem filters_disjoint (t : Topology) (x : NodeID) :
  (∀ tree, Topology_Tree t = Some tree → (node_count tree <= 2 ^ 32)%N) →
  (∀ k k' ids ids', getAllProcessingKind t k = Some ids →
     getAllProcessingKind t k' = Some ids' → x ∈ ids → x ∈ ids' → k = k')
  ∧ (∀ l l' ids ids', getAllCacheLevel t l = Some ids →
       getAllCacheLevel t l' = Some ids' → x ∈ ids → x ∈ ids' → l = l')
  ∧ (∀ k l ids ids', getAllProcessingKind t k = Some ids →
       getAllCacheLevel t l = Some ids' → x ∈ ids → x ∉ ids').
Proof.
  intros Hcount.
  assert (∀ tree j j' tn tn', Topology_Tree t = Some tree →
            Nodes tree !! j = Some tn → Nodes tree !! j' = Some tn' →
            NodeID_of_int j = NodeID_of_int j' → tn = tn') as Hsame.
  { intros tree j j' tn tn' Ht Hj Hj' Heq. specialize (Hcount tree Ht).
    pose proof (lookup_lt_Some _ _ _ Hj). pose proof (lookup_lt_Some _ _ _ Hj').
    unfold node_count in Hcount. rewrite !NodeID_of_int_small in Heq by lia.
    apply Nat2N.inj in Heq. subst j'. congruence. }
  split_and!.
  - intros k k' ids ids' Hrun Hrun' Hx Hx'.
    destruct (getAllProcessingKind_elem_of _ _ _ _ Hrun Hx)
      as (tree & j & tn & Ht & Hj & -> & e & p & Hd & _ & Hp & <-).
    destruct (getAllProcessingKind_elem_of _ _ _ _ Hrun' Hx')
      as (tree' & j' & tn' & Ht' & Hj' & Heq & e' & p' & Hd' & _ & Hp' & <-).
    rewrite Ht in Ht'. injection Ht' as <-.
    rewrite (Hsame _ _ _ _ _ Ht Hj Hj' Heq) in Hd. congruence.
  - intros l l' ids ids' Hrun Hrun' Hx Hx'.
    destruct (getAllCacheLevel_elem_of _ _ _ _ Hrun Hx)
      as (tree & j & tn & Ht & Hj & -> & e & c & Hd & _ & Hc & <-).
    destruct (getAllCacheLevel_elem_of _ _ _ _ Hrun' Hx')
      as (tree' & j' & tn' & Ht' & Hj' & Heq & e' & c' & Hd' & _ & Hc' & <-).
    rewrite Ht in Ht'. injection Ht' as <-.
    rewrite (Hsame _ _ _ _ _ Ht Hj Hj' Heq) in Hd. congruence.
  - intros k l ids ids' Hrun Hrun' Hx Hx'.
    destruct (getAllProcessingKind_elem_of _ _ _ _ Hrun Hx)
      as (tree & j & tn & Ht & Hj & -> & e & p & Hd & Hproc & Hp & _).
    destruct (getAllCacheLevel_elem_of _ _ _ _ Hrun' Hx')
      as (tree' & j' & tn' & Ht' & Hj' & Heq & e' & c' & Hd' & Hcache & Hc' & _).
    rewrite Ht in Ht'. injection Ht' as <-.
    rewrite (Hsame _ _ _ _ _ Ht Hj Hj' Heq) in Hd.
    assert (e = e') as <- by congruence.
    unfold IsProcessing, IsCache in *. rewrite Hp in Hproc.
    by rewrite Hp in Hcache.
Qed.

Lemma filters_disjoint_witness :
  (∀ k k' ids ids', getAllProcessingKind example_topology k = Some ids →
     getAllProcessingKind example_topology k' = Some ids' → 3%N ∈ ids → 3%N ∈ ids' → k = k')
  ∧ (∀ l l' ids ids', getAllCacheLevel example_topology l = Some ids →
       getAllCacheLevel example_topology l' = Some ids' → 3%N ∈ ids → 3%N ∈ ids' → l = l')
  ∧ (∀ k l ids ids', getAllProcessingKind example_topology k = Some ids →
       getAllCacheLevel example_topology l = Some ids' → 3%N ∈ ids → 3%N ∉ ids').
Proof. apply filters_disjoint. apply example_topology_count. Defined.

(** * Further properties of the element codec *)

Lemma wrap_range (ty : int_type) (z : Z) : (int_min ty <= wrap ty z <= int_max ty)%Z.
Proof.
  unfold wrap.
  assert (0 < int_max ty - int_min ty + 1)%Z as Hw by (destruct ty; by vm_compute).
  pose proof (Z.mod_pos_bound (z - int_min ty) _ Hw). lia.
Qed.

Section CodecFurther.
Variable unicode_ToLower : string → string.
Variable json_Unmarshal : string → jvalue + error.
Variable json_Marshal : gmap string raw_entry → string * option error.
Variable float64_unrepresentable : int_type → float64 → Z.

Lemma float64_to_range (ty : int_type) (f : float64) :
  (int_min ty <= float64_to float64_unrepresentable ty f <= int_max ty)%Z.
Proof.
  unfold float64_to. destruct (float64_trunc f) as [z|]; [|apply wrap_range].
  destruct (_ && _) eqn:Hr; [|apply wrap_range].
  apply andb_prop in Hr as [?%Z.leb_le ?%Z.leb_le]. lia.
Qed.

Lemma float64_to_uint32 (f : float64) :
  (Z.to_N (float64_to float64_unrepresentable t_uint32 f) < 2 ^ 32)%N.
Proof. pose proof (float64_to_range t_uint32 f) as H. simpl in H. lia. Qed.

Lemma float64_to_uint64 (f : float64) :
  (Z.to_N (float64_to float64_unrepresentable t_uint64 f) < 2 ^ 64)%N.
Proof. pose proof (float64_to_range t_uint64 f) as H. simpl in H. lia. Qed.

Lemma float64_to_int32 (f : float64) :
  (- 2 ^ 31 <= float64_to float64_unrepresentable t_int32 f < 2 ^ 31)%Z.
Proof. pose proof (float64_to_range t_int32 f) as H. simpl in H. lia. Qed.

Lemma ParseProcessingKind_known (s : string) (k : ProcessingKind) :
  ParseProcessingKind unicode_ToLower s = (k, None) → k ≠ UnknownProcessingKind.
Proof. unfold ParseProcessingKind. repeat case_match; by intros [= <-]. Qed.

Lemma ParseCacheLevel_known (s : string) (l : CacheLevel) :
  ParseCacheLevel s = (l, None) → l ≠ UnknownCacheLevel.
Proof. unfold ParseCacheLevel. repeat case_match; by intros [= <-]. Qed.

Lemma UnmarshalJSON_decoded (e e' : Element) (data : string) :
  UnmarshalJSON unicode_ToLower json_Unmarshal float64_unrepresentable e data = (e', None) →
  decoded_element e'.
Proof.
  unfold UnmarshalJSON. repeat case_match; intros [= <-]; simplify_eq; try done.
  - split; [by eapply ParseProcessingKind_known|apply float64_to_uint32].
  - split_and!; [by eapply ParseCacheLevel_known|apply float64_to_uint32|].
    eexists. split_and!; [done|apply float64_to_uint64|apply float64_to_uint32
                          |apply float64_to_int32..].
Qed.

(** X16. An element that [UnmarshalJSON] decodes without error is never
    ambiguous, whatever the receiver held before: it is the root, or a
    processing element of a known kind, or a cache of a known level with
    its attributes set, and every number fits the width of its field. *)
Theorem decoded_element_well_formed (e e' : Element) (data : string) :
  UnmarshalJSON unicode_ToLower json_Unmarshal float64_unrepresentable e data = (e', None) →
  decoded_element e'
  ∧ (IsRoot e' = true ∧ IsProcessing e' = false ∧ IsCache e' = false
     ∨ IsRoot e' = false ∧ IsProcessing e' = true ∧ IsCache e' = false
     ∨ IsRoot e' = false ∧ IsProcessing e' = false ∧ IsCache e' = true).
Proof.
  intros Hrun. pose proof (UnmarshalJSON_decoded e e' data Hrun) as Hd. split; [done|].
  unfold decoded_element in Hd. unfold IsRoot, IsProcessing, IsCache.
  destruct (Element_Processing e'), (Element_Cache e'); simpl; tauto.
Qed.

(** X17. The result of a successful decode does not depend on what the
    receiver held; a failed decode returns the decoder's error or one that
    starts with "failed to unmarshal ", and never sets a pointer of the
    receiver: each of the two is left as it was or cleared. *)
Theorem UnmarshalJSON_receiver (e e' : Element) (data : string) (err : option error) :
  UnmarshalJSON unicode_ToLower json_Unmarshal float64_unrepresentable e data = (e', err) →
  match err with
  | None =>
      ∀ e0, UnmarshalJSON unicode_ToLower json_Unmarshal float64_unrepresentable e0 data
            = (e', None)
  | Some msg =>
      (Element_Processing e' = Element_Processing e ∨ Element_Processing e' = None)
      ∧ (Element_Cache e' = Element_Cache e ∨ Element_Cache e' = None)
      ∧ (json_Unmarshal data = inr msg
         ∨ HasPrefix msg "failed to unmarshal "%string = true)
  end.
Proof.
  unfold UnmarshalJSON. intros Heq.
  repeat case_match; simplify_eq; simpl; try done;
    try (by split_and!; [by (left + right)..|by right]).
  by split_and!; [by left|by left|by left].
Qed.

Lemma as_string_Some (v : option jvalue) (s : string) :
  as_string v = Some s → v = Some (JString s).
Proof. destruct v as [[]|]; simpl; congruence. Qed.

Lemma as_float64_Some (v : option jvalue) (f : float64) :
  as_float64 v = Some f → v = Some (JFloat64 f).
Proof. destruct v as [[]|]; simpl; congruence. Qed.

Lemma as_map_Some (v : option jvalue) (m : gmap string jvalue) :
  as_map v = Some m → v = Some (JMap m).
Proof. destruct v as [[]|]; simpl; congruence. Qed.

Lemma ParseProcessingKind_error (s : string) (k : ProcessingKind) (err : error) :
  ParseProcessingKind unicode_ToLower s = (k, Some err) →
  k = UnknownProcessingKind ∧ err = ("unknown processing kind: '" ++ s ++ "'")%string.
Proof.
  unfold ParseProcessingKind.
  repeat case_match; intros Heq; try discriminate Heq.
  injection Heq as <- <-. split; reflexivity.
Qed.

Lemma ParseCacheLevel_error (s : string) (l : CacheLevel) (err : error) :
  ParseCacheLevel s = (l, Some err) →
  l = UnknownCacheLevel ∧ err = ("Unknown cache level '" ++ s ++ "'")%string.
Proof.
  unfold ParseCacheLevel.
  repeat case_match; intros Heq; try discriminate Heq.
  injection Heq as <- <-. split; reflexivity.
Qed.

(** X18. The key "processing".  When the object has it, decoding succeeds
    exactly when its value is an object whose "kind" is a string naming a
    kind and whose "id" is a number, and then gives the processing element
    of that kind and of the id converted to uint32; every other value
    fails with "failed to unmarshal Processing", followed for a string that
    names no kind by the error of [ParseProcessingKind]. *)
Theorem processing_key (e : Element) (data : string) (root : gmap string jvalue)
    (content : jvalue) :
  HasPrefix (ToLower unicode_ToLower data) (quoted "machine") = false →
  json_Unmarshal data = inl (JMap root) →
  root !! "processing"%string = Some content →
  (∀ e', UnmarshalJSON unicode_ToLower json_Unmarshal float64_unrepresentable e data
         = (e', None) ↔
     ∃ m kindStr idF64 kind,
       content = JMap m
       ∧ m !! "kind"%string = Some (JString kindStr)
       ∧ m !! "id"%string = Some (JFloat64 idF64)
       ∧ ParseProcessingKind unicode_ToLower kindStr = (kind, None)
       ∧ e' = {| Element_Processing :=
                   Some {| Kind := kind;
                           ID := Z.to_N (float64_to float64_unrepresentable t_uint32 idF64) |};
                 Element_Cache := None |})
  ∧ (∀ e' err, UnmarshalJSON unicode_ToLower json_Unmarshal float64_unrepresentable e data
               = (e', Some err) →
       err = "failed to unmarshal Processing"%string
       ∨ ∃ kindStr,
           err = ("failed to unmarshal Processing: failed to unmarshal ProcessingKind: "
                  ++ "unknown processing kind: '" ++ kindStr ++ "'")%string).
Proof.
  intros Hprefix Hraw Hcontent. unfold UnmarshalJSON. rewrite Hprefix, Hraw, Hcontent. split.
  - intros e'. split.
    + unfold as_string, as_float64. repeat case_match; intros; simplify_eq.
      by eexists _, _, _, _.
    + intros (m & kindStr & idF64 & kind & -> & Hk & Hi & Hparse & ->).
      rewrite Hk, Hi. simpl. by rewrite Hparse.
  - intros e' err. unfold as_string, as_float64.
    repeat case_match; intros; simplify_eq; try (by left).
    right. match goal with H : ParseProcessingKind _ ?s = _ |- _ =>
      exists s; apply ParseProcessingKind_error in H as [_ ->]; reflexivity end.
Qed.

(** X19. The key "cache", looked at when there is no key "processing".
    Decoding succeeds exactly when the value is an object whose "lvl" is
    one of the strings L1 to L5, whose "li" is a number and whose "attrs"
    is an object with numbers under "size", "line" and "ways"; it then
    gives the cache of that level with each number converted to the type
    of its field. *)
Theorem cache_key (e : Element) (data : string) (root : gmap string jvalue)
    (content : jvalue) :
  HasPrefix (ToLower unicode_ToLower data) (quoted "machine") = false →
  json_Unmarshal data = inl (JMap root) →
  root !! "processing"%string = None →
  root !! "cache"%string = Some content →
  (∀ e', UnmarshalJSON unicode_ToLower json_Unmarshal float64_unrepresentable e data
         = (e', None) ↔
     ∃ m attrs levelStr liF64 sizeF64 lineF64 waysF64 level,
       content = JMap m
       ∧ m !! "lvl"%string = Some (JString levelStr)
       ∧ m !! "li"%string = Some (JFloat64 liF64)
       ∧ m !! "attrs"%string = Some (JMap attrs)
       ∧ attrs !! "size"%string = Some (JFloat64 sizeF64)
       ∧ attrs !! "line"%string = Some (JFloat64 lineF64)
       ∧ attrs !! "ways"%string = Some (JFloat64 waysF64)
       ∧ ParseCacheLevel levelStr = (level, None)
       ∧ e' = {| Element_Processing := None;
                 Element_Cache := Some
                   {| Level := level;
                      LogicalIndex := Z.to_N (float64_to float64_unrepresentable t_uint32 liF64);
                      Attributes := Some
                        {| Size := Z.to_N (float64_to float64_unrepresentable t_uint64 sizeF64);
                           Linesize :=
                             Z.to_N (float64_to float64_unrepresentable t_uint32 lineF64);
                           Associativity :=
                             float64_to float64_unrepresentable t_int32 waysF64 |} |} |})
  ∧ (∀ e' err, UnmarshalJSON unicode_ToLower json_Unmarshal float64_unrepresentable e data
               = (e', Some err) →
       err = "failed to unmarshal Cache"%string
       ∨ ∃ levelStr,
           err = ("failed to unmarshal Cache: failed to unmarshal CacheLevel: "
                  ++ "Unknown cache level '" ++ levelStr ++ "'")%string).
Proof.
  intros Hprefix Hraw Hnone Hcontent. unfold UnmarshalJSON.
  rewrite Hprefix, Hraw, Hnone, Hcontent. split.
  - intros e'. split.
    + repeat case_match; intros; simplify_eq.
      repeat match goal with
             | H : as_string _ = Some _ |- _ => apply as_string_Some in H
             | H : as_float64 _ = Some _ |- _ => apply as_float64_Some in H
             | H : as_map _ = Some _ |- _ => apply as_map_Some in H
             end.
      by eexists _, _, _, _, _, _, _, _.
    + intros (m & attrs & levelStr & li & size & line & ways & level
              & -> & Hl & Hli & Ha & Hs & Hln & Hw & Hparse & ->).
      rewrite Hl, Hli, Ha. simpl. rewrite Hs, Hln, Hw. simpl. by rewrite Hparse.
  - intros e' err.
    repeat case_match; intros; simplify_eq; try (by left).
    right. match goal with H : ParseCacheLevel ?s = _ |- _ =>
      exists s; apply ParseCacheLevel_error in H as [_ ->]; reflexivity end.
Qed.

(** X20. [ParseProcessingKind] succeeds exactly on the strings that
    lower to one of "package", "numa_node", "numanode", "core" and
    "thread", and then returns a kind other than the unknown one; on every
    other string it returns the unknown kind with an error that quotes the
    string as it was given. *)
Theorem ParseProcessingKind_accepts (s : string) :
  (snd (ParseProcessingKind unicode_ToLower s) = None ↔
     ToLower unicode_ToLower s ∈ kind_spellings)
  ∧ (∀ k, ParseProcessingKind unicode_ToLower s = (k, None) → k ≠ UnknownProcessingKind)
  ∧ (snd (ParseProcessingKind unicode_ToLower s) ≠ None →
     ParseProcessingKind unicode_ToLower s
     = (UnknownProcessingKind, Some ("unknown processing kind: '" ++ s ++ "'")%string)).
Proof.
  split_and!.
  - unfold ParseProcessingKind, kind_spellings. rewrite !elem_of_cons, elem_of_nil.
    destruct (String.eqb_spec (ToLower unicode_ToLower s) "package") as [->|?];
      [simpl; by intuition|].
    destruct (String.eqb_spec (ToLower unicode_ToLower s) "numa_node") as [->|?];
      [simpl; by intuition|].
    destruct (String.eqb_spec (ToLower unicode_ToLower s) "numanode") as [->|?];
      [simpl; by intuition|].
    destruct (String.eqb_spec (ToLower unicode_ToLower s) "core") as [->|?];
      [simpl; by intuition|].
    destruct (String.eqb_spec (ToLower unicode_ToLower s) "thread") as [->|?];
      [simpl; by intuition|].
    simpl. split; [done|]. intros H. by decompose [or] H.
  - intros k. apply ParseProcessingKind_known.
  - destruct (ParseProcessingKind unicode_ToLower s) as [k [err|]] eqn:Hparse; [|done].
    intros _. by apply ParseProcessingKind_error in Hparse as [-> ->].
Qed.

(** X21. The wire forms of the enumerations read back.  The lower-cased
    name of a kind, and its name as it is, parse to the kind; the name of a
    level parses to the level; and conversely a string [ParseCacheLevel]
    accepts is the name of the level it returns, and a string
    [ParseProcessingKind] accepts lowers to the lower-cased name of the
    kind it returns, or to "numa_node". *)
Theorem enumerations_round_trip :
  (∀ k, k ≠ UnknownProcessingKind →
        ParseProcessingKind unicode_ToLower (ToLower unicode_ToLower (ProcessingKind_String k))
          = (k, None)
        ∧ ParseProcessingKind unicode_ToLower (ProcessingKind_String k) = (k, None))
  ∧ (∀ l, l ≠ UnknownCacheLevel → ParseCacheLevel (CacheLevel_String l) = (l, None))
  ∧ (∀ s l, ParseCacheLevel s = (l, None) → CacheLevel_String l = s)
  ∧ (∀ s k, ParseProcessingKind unicode_ToLower s = (k, None) →
        ToLower unicode_ToLower (ProcessingKind_String k) = ToLower unicode_ToLower s
        ∨ k = NUMANode ∧ ToLower unicode_ToLower s = "numa_node"%string).
Proof.
  split_and!.
  - by intros [].
  - by intros [].
  - intros s l. unfold ParseCacheLevel.
    destruct (String.eqb_spec s "L1") as [->|?]; [by intros [= <-]|].
    destruct (String.eqb_spec s "L2") as [->|?]; [by intros [= <-]|].
    destruct (String.eqb_spec s "L3") as [->|?]; [by intros [= <-]|].
    destruct (String.eqb_spec s "L4") as [->|?]; [by intros [= <-]|].
    destruct (String.eqb_spec s "L5") as [->|?]; [by intros [= <-]|]. done.
  - intros s k. unfold ParseProcessingKind.
    destruct (String.eqb_spec (ToLower unicode_ToLower s) "package") as [Hs|?];
      [intros [= <-]; left; by rewrite Hs|].
    destruct (String.eqb_spec (ToLower unicode_ToLower s) "numa_node") as [Hs|?];
      [intros [= <-]; by right|].
    destruct (String.eqb_spec (ToLower unicode_ToLower s) "numanode") as [Hs|?];
      [intros [= <-]; left; by rewrite Hs|].
    destruct (String.eqb_spec (ToLower unicode_ToLower s) "core") as [Hs|?];
      [intros [= <-]; left; by rewrite Hs|].
    destruct (String.eqb_spec (ToLower unicode_ToLower s) "thread") as [Hs|?];
      [intros [= <-]; left; by rewrite Hs|]. done.
Qed.

(** X22. [MarshalJSON] writes the root as the token "machine" in quotes,
    which [UnmarshalJSON] reads back as the root whatever the receiver
    held; it rejects an element with both pointers set with "Invalid
    Element"; and an element that was decoded without error is never
    rejected: unless it is the root it goes to [json.Marshal] under the
    one key "cache" or "processing". *)
Theorem MarshalJSON_cases (e : Element) :
  (IsRoot e = true →
     MarshalJSON json_Marshal e = (quoted "machine", None)
     ∧ ∀ e0, UnmarshalJSON unicode_ToLower json_Unmarshal float64_unrepresentable e0
               (quoted "machine") = (Root_element, None))
  ∧ (is_Some (Element_Processing e) → is_Some (Element_Cache e) →
     MarshalJSON json_Marshal e = (""%string, Some "Invalid Element"%string))
  ∧ (∀ e0 data,
       UnmarshalJSON unicode_ToLower json_Unmarshal float64_unrepresentable e0 data
         = (e, None) →
       IsRoot e = false →
       (∃ c, Element_Cache e = Some c
          ∧ MarshalJSON json_Marshal e
            = json_Marshal (<["cache"%string := raw_Cache (Some c)]> ∅))
       ∨ (∃ p, Element_Processing e = Some p
            ∧ MarshalJSON json_Marshal e
              = json_Marshal (<["processing"%string := raw_Processing (Some p)]> ∅))).
Proof.
  split_and!.
  - intros Hroot. unfold MarshalJSON. by rewrite Hroot.
  - intros [p Hp] [c Hc]. unfold MarshalJSON, IsRoot, IsCache, IsProcessing.
    by rewrite Hp, Hc.
  - intros e0 data Hrun Hroot. apply UnmarshalJSON_decoded in Hrun.
    unfold decoded_element in Hrun. unfold MarshalJSON, IsRoot, IsCache, IsProcessing in *.
    destruct (Element_Processing e) as [p|], (Element_Cache e) as [c|]; try done.
    + right. by exists p.
    + left. by exists c.
Qed.

(** X23. [Element.String] reaches its panic exactly on an element with
    both pointers set.  It prints the root as "Machine" and a processing
    element as its kind and ID; for an element that was decoded without
    error it returns, and a decoded cache is printed with its attributes,
    never with a nil. *)
Theorem Element_String_panics (e : Element) :
  (Element_String e = Panic UNREACHABLE ↔
     is_Some (Element_Processing e) ∧ is_Some (Element_Cache e))
  ∧ (IsRoot e = true → Element_String e = Ok "Machine"%string)
  ∧ (∀ p, Element_Processing e = Some p → Element_Cache e = None →
          Element_String e
          = Ok (ProcessingKind_String (Kind p) ++ "(" ++ fmt_d (ID p) ++ ")")%string)
  ∧ (∀ e0 data,
       UnmarshalJSON unicode_ToLower json_Unmarshal float64_unrepresentable e0 data
         = (e, None) →
       Element_String e = Ok "Machine"%string
       ∨ (∃ p, Element_Processing e = Some p ∧ Element_String e = Ok (Processing_String p))
       ∨ (∃ c ca, Element_Cache e = Some c ∧ Attributes c = Some ca
            ∧ Element_String e
              = Ok ("Cache{ " ++ CacheLevel_String (Level c) ++ "(L#"
                    ++ fmt_d (LogicalIndex c) ++ "), attrs: "
                    ++ CacheAttributes_String ca ++ " }")%string)).
Proof.
  split_and!.
  - unfold Element_String, IsRoot, IsCache, IsProcessing.
    destruct (Element_Processing e) as [p|], (Element_Cache e) as [c|]; simpl.
    + split; [by split; eexists|done].
    + split; [done|]. by intros [_ [? ?]].
    + split; [done|]. by intros [[? ?] _].
    + split; [done|]. by intros [[? ?] _].
  - intros Hroot. unfold Element_String. by rewrite Hroot.
  - intros p Hp Hc. unfold Element_String, IsRoot, IsCache, IsProcessing.
    by rewrite Hp, Hc.
  - intros e0 data Hrun. apply UnmarshalJSON_decoded in Hrun.
    unfold decoded_element in Hrun. unfold Element_String, IsRoot, IsCache, IsProcessing.
    destruct (Element_Processing e) as [p|], (Element_Cache e) as [c|]; simpl; try done.
    + right. left. by exists p.
    + destruct Hrun as (_ & _ & ca & Hca & _). right. right. exists c, ca.
      split_and!; [done..|]. unfold Cache_String. by rewrite Hca.
    + by left.
Qed.
End CodecFurther.

Lemma decoded_element_well_formed_witness :
  decoded_element (Processing_element Core 0)
  ∧ (IsRoot (Processing_element Core 0) = true
       ∧ IsProcessing (Processing_element Core 0) = false
       ∧ IsCache (Processing_element Core 0) = false
     ∨ IsRoot (Processing_element Core 0) = false
       ∧ IsProcessing (Processing_element Core 0) = true
       ∧ IsCache (Processing_element Core 0) = false
     ∨ IsRoot (Processing_element Core 0) = false
       ∧ IsProcessing (Processing_element Core 0) = false
       ∧ IsCache (Processing_element Core 0) = true).
Proof.
  apply (decoded_element_well_formed (λ s, s) (λ _, inl (JMap both_keys_object))
           (λ _ _, 0%Z) Root_element (Processing_element Core 0) both_keys_text).
  by vm_compute.
Defined.

Lemma UnmarshalJSON_receiver_witness :
  (Element_Processing (Processing_element Core 7)
     = Element_Processing (Processing_element Core 7)
   ∨ Element_Processing (Processing_element Core 7) = None)
  ∧ (Element_Cache (Processing_element Core 7) = Element_Cache (Processing_element Core 7)
     ∨ Element_Cache (Processing_element Core 7) = None)
  ∧ ((λ _ : string, inl (JMap ∅) : jvalue + error) "{}"%string
       = inr "failed to unmarshal Element"%string
     ∨ HasPrefix "failed to unmarshal Element" "failed to unmarshal " = true).
Proof.
  apply (UnmarshalJSON_receiver (λ s, s) (λ _, inl (JMap ∅)) (λ _ _, 0%Z)
           (Processing_element Core 7) (Processing_element Core 7) "{}"%string
           (Some "failed to unmarshal Element"%string)).
  by vm_compute.
Defined.

Lemma processing_key_witness :
  (∀ e', UnmarshalJSON (λ s, s) (λ _, inl (JMap both_keys_object)) (λ _ _, 0%Z)
           Root_element both_keys_text = (e', None) ↔
     ∃ m kindStr idF64 kind,
       JMap (<["kind"%string := JString "core"]>
             (<["id"%string := JFloat64 (SpecFloat.S754_zero false)]> ∅)) = JMap m
       ∧ m !! "kind"%string = Some (JString kindStr)
       ∧ m !! "id"%string = Some (JFloat64 idF64)
       ∧ ParseProcessingKind (λ s, s) kindStr = (kind, None)
       ∧ e' = {| Element_Processing :=
                   Some {| Kind := kind;
                           ID := Z.to_N (float64_to (λ _ _, 0%Z) t_uint32 idF64) |};
                 Element_Cache := None |})
  ∧ (∀ e' err, UnmarshalJSON (λ s, s) (λ _, inl (JMap both_keys_object)) (λ _ _, 0%Z)
                 Root_element both_keys_text = (e', Some err) →
       err = "failed to unmarshal Processing"%string
       ∨ ∃ kindStr,
           err = ("failed to unmarshal Processing: failed to unmarshal ProcessingKind: "
                  ++ "unknown processing kind: '" ++ kindStr ++ "'")%string).
Proof.
  apply (processing_key (λ s, s) (λ _, inl (JMap both_keys_object)) (λ _ _, 0%Z)
           Root_element both_keys_text both_keys_object); by vm_compute.
Defined.

Lemma cache_key_witness :
  (∀ e', UnmarshalJSON (λ s, s) (λ _, inl (JMap cache_object)) (λ _ _, 0%Z)
           Root_element cache_text = (e', None) ↔
     ∃ m attrs levelStr liF64 sizeF64 lineF64 waysF64 level,
       JMap (<["lvl"%string := JString "L1"]>
             (<["li"%string := JFloat64 (SpecFloat.S754_zero false)]>
              (<["attrs"%string :=
                   JMap (<["size"%string := JFloat64 (SpecFloat.S754_zero false)]>
                         (<["line"%string := JFloat64 (SpecFloat.S754_zero false)]>
                          (<["ways"%string := JFloat64 (SpecFloat.S754_zero false)]> ∅)))]>
               ∅))) = JMap m
       ∧ m !! "lvl"%string = Some (JString levelStr)
       ∧ m !! "li"%string = Some (JFloat64 liF64)
       ∧ m !! "attrs"%string = Some (JMap attrs)
       ∧ attrs !! "size"%string = Some (JFloat64 sizeF64)
       ∧ attrs !! "line"%string = Some (JFloat64 lineF64)
       ∧ attrs !! "ways"%string = Some (JFloat64 waysF64)
       ∧ ParseCacheLevel levelStr = (level, None)
       ∧ e' = {| Element_Processing := None;
                 Element_Cache := Some
                   {| Level := level;
                      LogicalIndex := Z.to_N (float64_to (λ _ _, 0%Z) t_uint32 liF64);
                      Attributes := Some
                        {| Size := Z.to_N (float64_to (λ _ _, 0%Z) t_uint64 sizeF64);
                           Linesize := Z.to_N (float64_to (λ _ _, 0%Z) t_uint32 lineF64);
                           Associativity := float64_to (λ _ _, 0%Z) t_int32 waysF64 |} |} |})
  ∧ (∀ e' err, UnmarshalJSON (λ s, s) (λ _, inl (JMap cache_object)) (λ _ _, 0%Z)
                 Root_element cache_text = (e', Some err) →
       err = "failed to unmarshal Cache"%string
       ∨ ∃ levelStr,
           err = ("failed to unmarshal Cache: failed to unmarshal CacheLevel: "
                  ++ "Unknown cache level '" ++ levelStr ++ "'")%string).
Proof.
  apply (cache_key (λ s, s) (λ _, inl (JMap cache_object)) (λ _ _, 0%Z)
           Root_element cache_text cache_object); by vm_compute.
Defined.

(** * The round trip of a topology *)

(** ** Integers held exactly by a float64 *)

Lemma digits2_pos_bound (m : positive) :
  (2 ^ (Z.pos (SpecFloat.digits2_pos m) - 1) <= Z.pos m < 2 ^ Z.pos (SpecFloat.digits2_pos m))%Z.
Proof.
  induction m as [m IH|m IH|]; simpl SpecFloat.digits2_pos.
  - rewrite Pos2Z.inj_succ, Z.pow_succ_r by lia.
    replace (Z.succ (Z.pos (SpecFloat.digits2_pos m)) - 1)%Z
      with (Z.succ (Z.pos (SpecFloat.digits2_pos m) - 1))%Z by lia.
    rewrite Z.pow_succ_r by lia. lia.
  - rewrite Pos2Z.inj_succ, Z.pow_succ_r by lia.
    replace (Z.succ (Z.pos (SpecFloat.digits2_pos m)) - 1)%Z
      with (Z.succ (Z.pos (SpecFloat.digits2_pos m) - 1))%Z by lia.
    rewrite Z.pow_succ_r by lia. lia.
  - simpl. lia.
Qed.

Lemma digits2_pos_le (m : positive) (k : Z) :
  (0 <= k)%Z → (Z.pos m < 2 ^ k)%Z → (Z.pos (SpecFloat.digits2_pos m) <= k)%Z.
Proof.
  intros Hk Hm. pose proof (digits2_pos_bound m) as [Hlo _].
  destruct (Z.le_gt_cases (Z.pos (SpecFloat.digits2_pos m)) k) as [|Hgt]; [done|].
  assert (2 ^ k <= 2 ^ (Z.pos (SpecFloat.digits2_pos m) - 1))%Z
    by (apply Z.pow_le_mono_r; lia).
  lia.
Qed.

Lemma iter_xO_spec (m : positive) (d : positive) :
  Z.pos (Pos.iter xO m d) = (Z.pos m * 2 ^ Z.pos d)%Z
  ∧ SpecFloat.digits2_pos (Pos.iter xO m d) = (SpecFloat.digits2_pos m + d)%positive.
Proof.
  induction d as [|d [Hv Hd]] using Pos.peano_ind.
  - simpl. split; [lia|]. lia.
  - rewrite Pos.iter_succ. split.
    + rewrite Pos2Z.inj_xO, Hv, Pos2Z.inj_succ, Z.pow_succ_r by lia. lia.
    + simpl. rewrite Hd. lia.
Qed.

Lemma shr_fexp_aligned (m : positive) (e : Z) :
  Z.pos (SpecFloat.digits2_pos m) = 53%Z → (- 1074 <= e)%Z →
  SpecFloat.shr_fexp 53 1024 (Z.pos m) e SpecFloat.loc_Exact
  = ({| SpecFloat.shr_m := Z.pos m; SpecFloat.shr_r := false; SpecFloat.shr_s := false |}, e).
Proof.
  intros Hd He. unfold SpecFloat.shr_fexp, SpecFloat.fexp, SpecFloat.emin.
  simpl SpecFloat.Zdigits2. rewrite Hd.
  replace (Z.max (53 + e - 53) (3 - 1024 - 53) - e)%Z with 0%Z by lia.
  reflexivity.
Qed.

Lemma binary_round_aux_aligned (s : bool) (m : positive) (e : Z) :
  Z.pos (SpecFloat.digits2_pos m) = 53%Z → (- 1074 <= e <= 971)%Z →
  SpecFloat.binary_round_aux 53 1024 s (Z.pos m) e SpecFloat.loc_Exact
  = SpecFloat.S754_finite s m e.
Proof.
  intros Hd He. unfold SpecFloat.binary_round_aux.
  rewrite shr_fexp_aligned by (done || lia). simpl SpecFloat.round_nearest_even.
  rewrite shr_fexp_aligned by (done || lia). simpl SpecFloat.shr_m.
  replace (e <=? 1024 - 53)%Z with true by (symmetry; apply Z.leb_le; lia).
  reflexivity.
Qed.

Lemma binary_round_exact (s : bool) (m : positive) :
  (Z.pos m < 2 ^ 53)%Z →
  float64_trunc (SpecFloat.binary_round 53 1024 s m 0)
  = Some (if s then Z.neg m else Z.pos m).
Proof.
  intros Hm. pose proof (digits2_pos_le m 53 ltac:(lia) Hm) as Hd.
  pose proof (Pos2Z.is_pos (SpecFloat.digits2_pos m)) as Hd0.
  unfold SpecFloat.binary_round, SpecFloat.shl_align, SpecFloat.fexp, SpecFloat.emin.
  rewrite Z.add_0_r, Z.sub_0_r.
  rewrite Z.max_l by lia.
  destruct (Z.pos (SpecFloat.digits2_pos m) - 53)%Z as [|p|p] eqn:Hshift; [|lia|].
  - rewrite binary_round_aux_aligned by lia. simpl. by destruct s.
  - destruct (iter_xO_spec m p) as [Hv Hdig].
    rewrite binary_round_aux_aligned by (rewrite ?Hdig; lia).
    unfold float64_trunc. rewrite Hv.
    change (Z.neg p) with (- Z.pos p)%Z. rewrite Z.shiftl_opp_r, Z.shiftr_div_pow2 by lia.
    rewrite Z.div_mul by lia. by destruct s.
Qed.

(** Every integer of at most 53 bits is held exactly. *)
Lemma small_exactly_representable (z : Z) :
  (- 2 ^ 53 < z < 2 ^ 53)%Z → exactly_representable z.
Proof.
  intros Hz. unfold exactly_representable, float64_of_Z, SpecFloat.binary_normalize.
  destruct z as [|m|m]; [done|..].
  - by rewrite binary_round_exact by lia.
  - by rewrite binary_round_exact by lia.
Qed.

(** ** Elements *)

Section RoundTrip.
Variable unicode_ToLower : string → string.
Variable json_Unmarshal : string → jvalue + error.
Variable json_Marshal : gmap string raw_entry → string * option error.
Variable float64_unrepresentable : int_type → float64 → Z.

Lemma float64_to_exact (ty : int_type) (z : Z) :
  exactly_representable z → (int_min ty <= z <= int_max ty)%Z →
  float64_to float64_unrepresentable ty (float64_of_Z z) = z.
Proof.
  intros Hz Hr. unfold float64_to. rewrite Hz.
  replace ((int_min ty <=? z)%Z && (z <=? int_max ty)%Z) with true; [done|].
  symmetry. apply andb_true_intro. split; apply Z.leb_le; lia.
Qed.

Ltac lookups :=
  repeat (first [rewrite lookup_insert_eq
                |rewrite lookup_insert_ne by done
                |rewrite lookup_empty]; simpl).

Lemma object_is_not_root (text : string) :
  isASCII text = true → HasPrefix text "{" = true →
  HasPrefix (ToLower unicode_ToLower text) (quoted "machine") = false.
Proof.
  intros Hascii Hprefix. unfold ToLower. rewrite Hascii.
  destruct text as [|c text]; [done|]. simpl in Hprefix.
  apply andb_prop in Hprefix as [Hc _]. apply bool_decide_eq_true in Hc as ->.
  reflexivity.
Qed.

Lemma element_round_trip (e : Element) :
  decoded_element e →
  (∀ c ca, Element_Cache e = Some c → Attributes c = Some ca →
     exactly_representable (Z.of_N (Size ca))) →
  (∀ c, Element_Cache e = Some c →
     reads_back unicode_ToLower json_Unmarshal json_Marshal
       (<["cache"%string := raw_Cache (Some c)]> ∅)) →
  (∀ p, Element_Processing e = Some p →
     reads_back unicode_ToLower json_Unmarshal json_Marshal
       (<["processing"%string := raw_Processing (Some p)]> ∅)) →
  ∃ text, MarshalJSON json_Marshal e = (text, None)
    ∧ ∀ e1, UnmarshalJSON unicode_ToLower json_Unmarshal float64_unrepresentable e1 text
            = (e, None).
Proof.
  intros Hd Hsize Hcache Hproc. destruct e as [[p|] [c|]]; simpl in *.
  - done.
  - destruct Hd as [Hk Hid].
    destruct (Hproc p eq_refl) as (text & Hm & Hascii & Hprefix & Hu).
    exists text. split; [done|]. intros e1. unfold UnmarshalJSON.
    rewrite object_is_not_root, Hu by done.
    rewrite fmap_insert, fmap_empty. simpl. unfold read_back_Processing. lookups.
    assert (ParseProcessingKind unicode_ToLower
              (ToLower unicode_ToLower (ProcessingKind_String (Kind p))) = (Kind p, None))
      as -> by (by destruct (Kind p)).
    rewrite float64_to_exact; [|apply small_exactly_representable; lia|simpl; lia].
    rewrite N2Z.id. by destruct p.
  - destruct Hd as (Hl & Hli & ca & Hca & Hs & Hln & Hw).
    destruct (Hcache c eq_refl) as (text & Hm & Hascii & Hprefix & Hu).
    exists text. split; [done|]. intros e1. unfold UnmarshalJSON.
    rewrite object_is_not_root, Hu by done.
    rewrite fmap_insert, fmap_empty. simpl.
    unfold read_back_Cache. rewrite Hca. unfold read_back_CacheAttributes. lookups.
    assert (ParseCacheLevel (CacheLevel_String (Level c)) = (Level c, None)) as ->
      by (by destruct (Level c)).
    rewrite (float64_to_exact t_uint64) by solve [by eapply Hsize|simpl; lia].
    rewrite !(float64_to_exact t_uint32)
      by solve [apply small_exactly_representable; lia|simpl; lia].
    rewrite (float64_to_exact t_int32)
      by solve [apply small_exactly_representable; lia|simpl; lia].
    rewrite !N2Z.id. destruct c as [l li a]. simpl in *. subst a. by destruct ca.
  - exists (quoted "machine"). split; [done|]. by intros e1.
Qed.
End RoundTrip.

(** ** Topologies *)

Section TopologyRoundTrip.
Variable unicode_ToLower : string → string.
Variable json_Unmarshal : string → jvalue + error.
Variable json_Marshal : gmap string raw_entry → string * option error.
Variable float64_unrepresentable : int_type → float64 → Z.

Lemma decode_nodes_decoded (nds : list node_document) (tns : list TreeNode) :
  decode_nodes unicode_ToLower json_Unmarshal float64_unrepresentable nds = inl tns →
  ∀ tn e, tn ∈ tns → Data tn = Some e → decoded_element e.
Proof.
  revert tns. induction nds as [|nd nds IH]; intros tns Hrun tn e Htn He; simpl in Hrun.
  - simplify_eq. by apply elem_of_nil in Htn.
  - destruct (decode_node _ _ _ nd) as [tn0|] eqn:Hnode; [|done].
    destruct (decode_nodes _ _ _ nds) as [tns0|]; [|done]. simplify_eq.
    apply elem_of_cons in Htn as [->|Htn]; [|by eapply IH].
    unfold decode_node in Hnode. destruct (document_data nd) as [text|]; [|by simplify_eq].
    destruct (UnmarshalJSON _ _ _ _ text) as [e' [err|]] eqn:Hdecode; simplify_eq.
    simpl in He. simplify_eq. by eapply UnmarshalJSON_decoded.
Qed.

Lemma nodes_round_trip (tns : list TreeNode) :
  (∀ tn e, tn ∈ tns → Data tn = Some e →
     ∃ text, MarshalJSON json_Marshal e = (text, None)
       ∧ ∀ e1, UnmarshalJSON unicode_ToLower json_Unmarshal float64_unrepresentable e1 text
               = (e, None)) →
  ∃ nds, encode_nodes json_Marshal tns = inl nds
    ∧ decode_nodes unicode_ToLower json_Unmarshal float64_unrepresentable nds = inl tns.
Proof.
  induction tns as [|tn tns IH]; intros Helem.
  - by exists [].
  - destruct IH as (nds & Hen & Hde).
    { intros tn' e Htn'. apply Helem. by right. }
    simpl. unfold encode_node. destruct tn as [[e|] cs]; simpl.
    + destruct (Helem _ e (list_elem_of_here _ _) eq_refl) as (text & Hm & Hu).
      rewrite Hm, Hen. eexists. split; [done|].
      simpl. unfold decode_node. simpl. by rewrite Hu, Hde.
    + rewrite Hen. eexists. split; [done|]. simpl. unfold decode_node. simpl. by rewrite Hde.
Qed.

(** C1. A topology that was decoded from a document without error, and
    whose cache sizes are all held exactly by a float64, is encoded
    without error, and decoding what was written gives the same topology
    again: the same nodes, with the same element and the same child IDs in
    the same order under every ID.  The encoder and the decoder of
    encoding/json are taken to agree on the elements of the topology
    ([codec_reads_back]). *)
Theorem topology_round_trip (doc : document) (t : Topology) :
  Topology_UnmarshalJSON unicode_ToLower json_Unmarshal float64_unrepresentable doc = inl t →
  sizes_representable t →
  codec_reads_back unicode_ToLower json_Unmarshal json_Marshal t →
  ∃ doc', Topology_MarshalJSON json_Marshal t = inl doc'
    ∧ Topology_UnmarshalJSON unicode_ToLower json_Unmarshal float64_unrepresentable doc'
      = inl t.
Proof.
  intros Hdecode Hsizes Hcodec. unfold Topology_UnmarshalJSON in Hdecode.
  destruct doc as [nds|]; [|simplify_eq; by exists None].
  destruct (decode_nodes _ _ _ nds) as [tns|] eqn:Hnodes; [|done]. simplify_eq.
  destruct (nodes_round_trip tns) as (nds' & Hen & Hde).
  { intros tn e Htn He.
    assert (e ∈ elements {| Topology_Tree := Some {| Nodes := tns |} |}) as Hin.
    { unfold elements. simpl. apply list_elem_of_omap. by exists tn. }
    apply element_round_trip.
    - by eapply decode_nodes_decoded.
    - intros c ca. by apply Hsizes.
    - by apply Hcodec.
    - by apply Hcodec. }
  exists (Some nds'). unfold Topology_MarshalJSON, Topology_UnmarshalJSON. simpl.
  by rewrite Hen, Hde.
Qed.
End TopologyRoundTrip.

Lemma scenario_elements (size : N) (e : Element) :
  e ∈ elements (scenario_topology size) →
  e = {| Element_Processing := None; Element_Cache := None |}
  ∨ e = {| Element_Processing := Some scenario_core; Element_Cache := None |}
  ∨ e = {| Element_Processing := None; Element_Cache := Some (scenario_cache size) |}.
Proof.
  unfold elements. simpl. intros He.
  repeat (apply elem_of_cons in He as [->|He]; [tauto|]). by apply elem_of_nil in He.
Qed.

Lemma topology_round_trip_witness :
  ∃ doc', Topology_MarshalJSON scenario_json_Marshal (scenario_topology 32768) = inl doc'
    ∧ Topology_UnmarshalJSON (λ s, s) scenario_json_Unmarshal amd64_unrepresentable doc'
      = inl (scenario_topology 32768).
Proof.
  apply (topology_round_trip (λ s, s) scenario_json_Unmarshal scenario_json_Marshal
           amd64_unrepresentable (scenario_document "32768")).
  - by vm_compute.
  - intros e c ca He Hc Ha.
    apply scenario_elements in He as [->|[->| ->]]; simpl in Hc; simplify_eq.
    simpl in Ha. simplify_eq. by vm_compute.
  - intros e He. split.
    + intros c Hc. apply scenario_elements in He as [->|[->| ->]]; simpl in Hc; simplify_eq.
      eexists. split_and!; by vm_compute.
    + intros p Hp. apply scenario_elements in He as [->|[->| ->]]; simpl in Hp; simplify_eq.
      eexists. split_and!; by vm_compute.
Defined.

(** C1, as first stated, fails where a conversion out of range yields
    an integer that no float64 holds.  The document of the scenario with
    the size [-1] is decoded without error; with [uint64(-1.0)] taken to
    [2 ^ 64 - 1] the topology holds that size, which is written in full
    and read back as the float64 [2 ^ 64], out of range again: the
    topology decoded from the encoding holds the size [2 ^ 63]. *)
Theorem negative_size_is_not_restored :
  Topology_UnmarshalJSON (λ s, s) scenario_json_Unmarshal amd64_unrepresentable
    (scenario_document "-1") = inl (scenario_topology (2 ^ 64 - 1))
  ∧ codec_reads_back (λ s, s) scenario_json_Unmarshal scenario_json_Marshal
      (scenario_topology (2 ^ 64 - 1))
  ∧ Topology_MarshalJSON scenario_json_Marshal (scenario_topology (2 ^ 64 - 1))
    = inl (scenario_document "18446744073709551615")
  ∧ float64_trunc (float64_of_Z (2 ^ 64 - 1)) = Some (2 ^ 64)%Z
  ∧ Topology_UnmarshalJSON (λ s, s) scenario_json_Unmarshal amd64_unrepresentable
      (scenario_document "18446744073709551615") = inl (scenario_topology (2 ^ 63))
  ∧ scenario_topology (2 ^ 63) ≠ scenario_topology (2 ^ 64 - 1).
Proof.
  split_and!.
  - by vm_compute.
  - intros e He. split.
    + intros c Hc. apply scenario_elements in He as [->|[->| ->]]; simpl in Hc; simplify_eq.
      eexists. split_and!; by vm_compute.
    + intros p Hp. apply scenario_elements in He as [->|[->| ->]]; simpl in Hp; simplify_eq.
      eexists. split_and!; by vm_compute.
  - by vm_compute.
  - by vm_compute.
  - by vm_compute.
  - intros H. by vm_compute in H.
Qed.
